(** * SQuAD-Translation: the answer-span cleaner of [src/clean_translations.py]

    A shallow embedding of [find_answer_span], [verify_and_correct_example],
    [contains_english] and [clean_squad_dataset], and the properties of the
    specification that concern them.

    Python values are modelled as the script uses them:
    - a [str] is a sequence of Unicode code points ([pystr]); every index and
      every length counts code points;
    - an [int] is a [Z];
    - the JSON dictionaries of the SQuAD format are records, a key read with
      [dict.get] is an [option] field;
    - the exceptions the script can raise on well-typed input are values of
      [PyError], and the mutable list [error_reports] is threaded as state. *)

From Stdlib Require Import List ZArith NArith Bool Lia String Ascii.
Import ListNotations.

Local Open Scope Z_scope.

(** ** Python strings *)

(** A character of a Python [str]: one Unicode code point. *)
Definition char : Type := N.

Definition pystr : Type := list char.

(** [len(s)] *)
Definition len {A : Type} (s : list A) : Z := Z.of_nat (List.length s).

(** A string literal of the script (all of them are ASCII). *)
Fixpoint lit (s : string) : pystr :=
  match s with
  | EmptyString => []
  | String a s' => N_of_ascii a :: lit s'
  end.

(** [s.startswith(sub)]: the comparison [str.find] performs at one position. *)
Fixpoint startswith (s sub : pystr) : bool :=
  match sub, s with
  | [], _ => true
  | _ :: _, [] => false
  | y :: sub', x :: s' => N.eqb x y && startswith s' sub'
  end.

(** The scan of [str.find]: [s] is the part of the string that starts at
    index [i]; the lowest matching index is returned, [-1] when there is
    none.  The empty string matches at once, as in Python. *)
Fixpoint find_from (i : Z) (s sub : pystr) : Z :=
  if startswith s sub then i
  else match s with
       | [] => -1
       | _ :: s' => find_from (i + 1) s' sub
       end.

(** [s.find(sub)] *)
Definition find (s sub : pystr) : Z := find_from 0 s sub.

(** [s[i:j]] for [0 <= i <= j]. *)
Definition slice {A : Type} (s : list A) (i j : Z) : list A :=
  firstn (Z.to_nat (j - i)) (skipn (Z.to_nat i) s).

(** ** [find_answer_span] *)

Definition find_answer_span (context answer : pystr) : option (Z * Z) :=
  let start_idx := find context answer in
  if start_idx =? -1 then None
  else Some (start_idx, start_idx + len answer).

(** [sub] occurs in [s] at character index [i]. *)
Definition occurs_at (s sub : pystr) (i : Z) : Prop :=
  exists pre post : pystr, s = pre ++ sub ++ post /\ len pre = i.

(** [sub in s] *)
Definition occurs (s sub : pystr) : Prop := exists i, occurs_at s sub i.

(** ** [contains_english]

    [re.search(r'[a-zA-Z]', text)]: the pattern is one character class made of
    two ranges, compiled without flags, so a range holds exactly the code
    points between its ends. *)

Inductive class_item : Type :=
  | Range (lo hi : char).

Definition item_matches (c : char) (it : class_item) : bool :=
  match it with
  | Range lo hi => (N.leb lo c && N.leb c hi)%bool
  end.

Definition class_matches (cls : list class_item) (c : char) : bool :=
  existsb (item_matches c) cls.

(** [re.search] for a pattern that is a single class: the text is scanned from
    the left and the span of the first matching character is the match
    object; [None] when no character matches. *)
Fixpoint re_search (cls : list class_item) (pos : Z) (text : pystr)
  : option (Z * Z) :=
  match text with
  | [] => None
  | c :: text' =>
      if class_matches cls c then Some (pos, pos + 1)
      else re_search cls (pos + 1) text'
  end.

(** The class [[a-zA-Z]]. *)
Definition latin_pattern : list class_item :=
  [Range (N_of_ascii "a") (N_of_ascii "z");
   Range (N_of_ascii "A") (N_of_ascii "Z")].

(** [bool(m)] of the result of [re.search]: a match object is truthy, [None]
    is falsy. *)
Definition bool_of_match (m : option (Z * Z)) : bool :=
  match m with
  | Some _ => true
  | None => false
  end.

Definition contains_english (text : pystr) : bool :=
  bool_of_match (re_search latin_pattern 0 text).

(** A Latin letter, as the specification words it. *)
Definition latin_letter (c : char) : Prop :=
  (N_of_ascii "a" <= c <= N_of_ascii "z")%N \/
  (N_of_ascii "A" <= c <= N_of_ascii "Z")%N.

(** ** The SQuAD records

    The same shapes serve as input and as cleaned output.  [answer_start] and
    [version] are the two keys the script reads with [dict.get]. *)

Record Answer : Type := {
  text : pystr;
  answer_start : option Z
}.

Record QA : Type := {
  id : pystr;
  question : pystr;
  answers : list Answer
}.

Record Paragraph : Type := {
  context : pystr;
  qas : list QA
}.

Record Article : Type := {
  title : pystr;
  paragraphs : list Paragraph
}.

Record Dataset : Type := {
  version : option pystr;
  data : list Article
}.

(** The dictionary built by [verify_and_correct_example].  Its keys ['text']
    and ['error'] are the fields [v_text] and [v_error]; ['corrected_start']
    and ['corrected_end'] are only set on the valid path. *)
Record Verification : Type := {
  v_text : pystr;
  original_start : Z;
  is_valid : bool;
  v_error : option pystr;
  corrected_start : option Z;
  corrected_end : option Z
}.

(** An entry of [error_reports], with keys ['id'], ['question'], ['context'],
    ['answer'] and ['error']. *)
Record ErrorReport : Type := {
  err_id : pystr;
  err_question : pystr;
  err_context : pystr;
  err_answer : Answer;
  error : option pystr
}.

(** ** [verify_and_correct_example] *)

Definition verify_and_correct_example (ctx : pystr) (answer : Answer)
  : Verification :=
  let answer_text := text answer in
  let span := find_answer_span ctx answer_text in
  let result :=
    {| v_text := answer_text;
       original_start := match answer_start answer with
                         | Some n => n
                         | None => -1
                         end;
       is_valid := false;
       v_error := None;
       corrected_start := None;
       corrected_end := None |} in
  match span with
  | None =>
      {| v_text := v_text result;
         original_start := original_start result;
         is_valid := is_valid result;
         v_error := Some (lit "Answer text not found in context");
         corrected_start := corrected_start result;
         corrected_end := corrected_end result |}
  | Some (span0, span1) =>
      {| v_text := v_text result;
         original_start := original_start result;
         is_valid := true;
         v_error := v_error result;
         corrected_start := Some span0;
         corrected_end := Some span1 |}
  end.

(** ** Exceptions and the shared list [error_reports] *)

Inductive PyError : Type :=
  | IndexError   (* [qa['answers'][0]] on an empty list *)
  | KeyError.    (* a key missing from a dictionary *)

Inductive result (A : Type) : Type :=
  | Ok (a : A)
  | Raise (e : PyError).

Arguments Ok {A} a.
Arguments Raise {A} e.

(** A computation that may raise and that may append to [error_reports]. *)
Definition M (A : Type) : Type :=
  list ErrorReport -> result (A * list ErrorReport).

Definition ret {A : Type} (a : A) : M A := fun st => Ok (a, st).

Definition raise {A : Type} (e : PyError) : M A := fun _ => Raise e.

Definition bind {A B : Type} (m : M A) (k : A -> M B) : M B :=
  fun st =>
    match m st with
    | Ok (a, st') => k a st'
    | Raise e => Raise e
    end.

Notation "x <- m ;; k" := (bind m (fun x => k))
  (at level 61, m at next level, right associativity).
Notation "m ;;; k" := (bind m (fun _ => k))
  (at level 61, right associativity).

(** [error_reports.append(r)] *)
Definition append_error (r : ErrorReport) : M unit :=
  fun st => Ok (tt, st ++ [r]).

(** [l[0]] *)
Definition getitem0 {A : Type} (l : list A) : M A :=
  match l with
  | [] => raise IndexError
  | x :: _ => ret x
  end.

(** [d[key]] for a key that may be absent. *)
Definition getkey {A : Type} (v : option A) : M A :=
  match v with
  | None => raise KeyError
  | Some x => ret x
  end.

(** [for x in xs: body], with the list the loop appends to as accumulator. *)
Fixpoint for_each {A B : Type} (xs : list A) (body : B -> A -> M B) (acc : B)
  : M B :=
  match xs with
  | [] => ret acc
  | x :: xs' => acc' <- body acc x ;; for_each xs' body acc'
  end.

(** Truth value of a list: [if cleaned_qas:]. *)
Definition truthy {A : Type} (l : list A) : bool :=
  match l with
  | [] => false
  | _ :: _ => true
  end.

(** ** [clean_squad_dataset] *)

(** Body of [for qa in para['qas']]. *)
Definition qa_body (ctx : pystr) (cleaned_qas : list QA) (qa : QA)
  : M (list QA) :=
  let question := question qa in
  answer <- getitem0 (answers qa) ;;
  if contains_english question || contains_english (text answer) then
    append_error {| err_id := id qa;
                    err_question := question;
                    err_context := ctx;
                    err_answer := answer;
                    error := Some (lit "Contains English characters") |} ;;;
    ret cleaned_qas
  else
    let verification := verify_and_correct_example ctx answer in
    if is_valid verification then
      start <- getkey (corrected_start verification) ;;
      let cleaned_qa :=
        {| id := id qa;
           question := question;
           answers := [{| text := v_text verification;
                          answer_start := Some start |}] |} in
      ret (cleaned_qas ++ [cleaned_qa])
    else
      append_error {| err_id := id qa;
                      err_question := question;
                      err_context := ctx;
                      err_answer := answer;
                      error := v_error verification |} ;;;
      ret cleaned_qas.

(** Body of [for para in article['paragraphs']]. *)
Definition para_body (cleaned_paragraphs : list Paragraph) (para : Paragraph)
  : M (list Paragraph) :=
  let ctx := context para in
  cleaned_qas <- for_each (qas para) (qa_body ctx) [] ;;
  if truthy cleaned_qas then
    ret (cleaned_paragraphs ++ [{| context := ctx; qas := cleaned_qas |}])
  else ret cleaned_paragraphs.

(** Body of [for article in data['data']]. *)
Definition article_body (cleaned_articles : list Article) (article : Article)
  : M (list Article) :=
  cleaned_paragraphs <- for_each (paragraphs article) para_body [] ;;
  if truthy cleaned_paragraphs then
    ret (cleaned_articles ++
         [{| title := title article; paragraphs := cleaned_paragraphs |}])
  else ret cleaned_articles.

(** [data.get('version', '1.1')] *)
Definition default_version (d : Dataset) : pystr :=
  match version d with
  | Some v => v
  | None => lit "1.1"
  end.

Definition clean_squad_dataset (d : Dataset)
  : result (Dataset * list ErrorReport) :=
  (cleaned_articles <- for_each (data d) article_body [] ;;
   ret {| version := Some (default_version d);
          data := cleaned_articles |}) [].

(** ** The summary counts of the script's entry point

    [sum(len(p['qas']) for a in data['data'] for p in a['paragraphs'])] *)

Definition sum_qas (ps : list Paragraph) : Z :=
  fold_right Z.add 0 (map (fun p => len (qas p)) ps).

Definition total_qas (articles : list Article) : Z :=
  sum_qas (flat_map paragraphs articles).

(** ** The specification's reading of the aggregation

    The specification describes the pipeline as a filter: a pair survives when
    neither its question nor its answer text has a Latin letter and its answer
    text is located in the context; paragraphs and articles are kept when what
    survives in them is not empty.  The definitions below follow those words;
    they are compared with the loops of [clean_squad_dataset] further down. *)

Fixpoint filter_map {A B : Type} (f : A -> option B) (l : list A) : list B :=
  match l with
  | [] => []
  | x :: l' =>
      match f x with
      | Some y => y :: filter_map f l'
      | None => filter_map f l'
      end
  end.

Definition has_answer (qa : QA) : bool := truthy (answers qa).

Definition rejected_by_filter (qa : QA) (answer : Answer) : bool :=
  contains_english (question qa) || contains_english (text answer).

(** The corrected pair a surviving pair becomes. *)
Definition spec_survivor (ctx : pystr) (qa : QA) : option QA :=
  match answers qa with
  | [] => None
  | answer :: _ =>
      if rejected_by_filter qa answer then None
      else match find_answer_span ctx (text answer) with
           | Some (s, _) =>
               Some {| id := id qa;
                       question := question qa;
                       answers := [{| text := text answer;
                                      answer_start := Some s |}] |}
           | None => None
           end
  end.

Definition report (ctx : pystr) (qa : QA) (answer : Answer) (msg : string)
  : ErrorReport :=
  {| err_id := id qa;
     err_question := question qa;
     err_context := ctx;
     err_answer := answer;
     error := Some (lit msg) |}.

(** The report a rejected pair becomes. *)
Definition spec_report (ctx : pystr) (qa : QA) : option ErrorReport :=
  match answers qa with
  | [] => None
  | answer :: _ =>
      if rejected_by_filter qa answer then
        Some (report ctx qa answer "Contains English characters")
      else match find_answer_span ctx (text answer) with
           | Some _ => None
           | None => Some (report ctx qa answer "Answer text not found in context")
           end
  end.

Definition spec_clean_paragraph (p : Paragraph) : Paragraph :=
  {| context := context p;
     qas := filter_map (spec_survivor (context p)) (qas p) |}.

Definition spec_clean_paragraphs (ps : list Paragraph) : list Paragraph :=
  filter (fun p => truthy (qas p)) (map spec_clean_paragraph ps).

Definition spec_clean_article (a : Article) : Article :=
  {| title := title a;
     paragraphs := spec_clean_paragraphs (paragraphs a) |}.

Definition spec_clean_articles (articles : list Article) : list Article :=
  filter (fun a => truthy (paragraphs a)) (map spec_clean_article articles).

Definition spec_reports_paragraph (p : Paragraph) : list ErrorReport :=
  filter_map (spec_report (context p)) (qas p).

Definition spec_reports_article (a : Article) : list ErrorReport :=
  flat_map spec_reports_paragraph (paragraphs a).

Definition spec_reports (articles : list Article) : list ErrorReport :=
  flat_map spec_reports_article articles.

Definition paragraph_has_answers (p : Paragraph) : bool :=
  forallb has_answer (qas p).

Definition article_has_answers (a : Article) : bool :=
  forallb paragraph_has_answers (paragraphs a).

(** Every pair of the dataset has at least one answer. *)
Definition all_have_answers (d : Dataset) : bool :=
  forallb article_has_answers (data d).

(** ** A pair in its place

    The dataset that holds the pairs [l] under the context [ctx], in the
    paragraph that follows the paragraphs [ps1] of the article titled [t],
    itself after the articles [as1]. *)

Definition dataset_with (v : option pystr) (as1 : list Article) (t : pystr)
           (ps1 : list Paragraph) (ctx : pystr) (l : list QA)
           (ps2 : list Paragraph) (as2 : list Article) : Dataset :=
  {| version := v;
     data := as1 ++
             {| title := t;
                paragraphs := ps1 ++ {| context := ctx; qas := l |} :: ps2 |}
             :: as2 |}.

(** ** Order preservation

    [embeds R l k]: [l] is, element by element under [R], a subsequence of
    [k]. *)

Inductive embeds {A B : Type} (R : A -> B -> Prop) : list A -> list B -> Prop :=
  | embeds_nil : embeds R [] []
  | embeds_skip (y : B) (l : list A) (k : list B) :
      embeds R l k -> embeds R l (y :: k)
  | embeds_keep (x : A) (y : B) (l : list A) (k : list B) :
      R x y -> embeds R l k -> embeds R (x :: l) (y :: k).

(** A cleaned pair [c] comes from the input pair [q]: same id, same question,
    and the text of the first answer of [q] as its only answer text. *)
Definition qa_from (c q : QA) : Prop :=
  id c = id q /\ question c = question q /\
  exists answer rest, answers q = answer :: rest /\
                      map text (answers c) = [text answer].

Definition paragraph_from (c p : Paragraph) : Prop :=
  context c = context p /\ embeds qa_from (qas c) (qas p).

Definition article_from (c a : Article) : Prop :=
  title c = title a /\ embeds paragraph_from (paragraphs c) (paragraphs a).

(** ** Forgetting the recorded offsets *)

Definition forget_answer (a : Answer) : Answer :=
  {| text := text a; answer_start := None |}.

Definition forget_qa (qa : QA) : QA :=
  {| id := id qa; question := question qa;
     answers := map forget_answer (answers qa) |}.

Definition forget_paragraph (p : Paragraph) : Paragraph :=
  {| context := context p; qas := map forget_qa (qas p) |}.

Definition forget_article (a : Article) : Article :=
  {| title := title a; paragraphs := map forget_paragraph (paragraphs a) |}.

(** The dataset with every [answer_start] removed. *)
Definition forget_starts (d : Dataset) : Dataset :=
  {| version := version d; data := map forget_article (data d) |}.

(** The cleaned dataset of a run, when it does not raise. *)
Definition cleaned_of (r : result (Dataset * list ErrorReport))
  : option Dataset :=
  match r with
  | Ok (c, _) => Some c
  | Raise _ => None
  end.

(** ** Bytes, for comparison

    [s.encode('utf-8')]: the byte sequence a byte-indexed implementation would
    search. *)

Definition utf8_char (c : char) : list N :=
  (if c <? 128 then [c]
   else if c <? 2048 then [192 + c / 64; 128 + c mod 64]
   else if c <? 65536 then
     [224 + c / 4096; 128 + (c / 64) mod 64; 128 + c mod 64]
   else [240 + c / 262144; 128 + (c / 4096) mod 64;
         128 + (c / 64) mod 64; 128 + c mod 64])%N.

Definition encode_utf8 (s : pystr) : list N := flat_map utf8_char s.

(** ** Sample data *)

(** U+03B1 .. U+03B5: alpha beta gamma delta epsilon. *)
Definition greek_context : pystr := [945; 946; 947; 948; 949]%N.

(** U+03B3 U+03B4: gamma delta. *)
Definition greek_answer : pystr := [947; 948]%N.

(** U+3053 U+3093 U+306B U+3061 U+306F: the Japanese greeting of the
    specification's example. *)
Definition konnichiwa : pystr := [12371; 12435; 12395; 12385; 12399]%N.

(** U+0DC1 U+0DCA U+200D U+0DBB U+0DD3: a Sinhala word, the target language of
    the translation step. *)
Definition sinhala_sri : pystr := [3521; 3530; 8205; 3515; 3539]%N.

(** U+0DBD U+0D82 U+0D9A U+0DCF: a second Sinhala word. *)
Definition sinhala_lanka : pystr := [3517; 3458; 3482; 3535]%N.

Definition sinhala_context : pystr :=
  sinhala_sri ++ [32%N] ++ sinhala_lanka.

Definition mk_qa (i q : pystr) (a : Answer) : QA :=
  {| id := i; question := q; answers := [a] |}.

(** An answer that is in [sinhala_context], recorded at the stale offset 99. *)
Definition found_answer : Answer :=
  {| text := sinhala_lanka; answer_start := Some 99 |}.

(** An answer that is not in [sinhala_context]. *)
Definition missing_answer : Answer :=
  {| text := konnichiwa; answer_start := Some 3 |}.

Definition sample_found : QA := mk_qa (lit "q1") sinhala_sri found_answer.

Definition sample_missing : QA := mk_qa (lit "q2") sinhala_lanka missing_answer.

(** A pair whose question was left in English; its answer is in the context. *)
Definition sample_english : QA := mk_qa (lit "q3") (lit "Where?") found_answer.

Definition sample_paragraph : Paragraph :=
  {| context := sinhala_context;
     qas := [sample_english; sample_found; sample_missing] |}.

(** A paragraph whose only pair fails. *)
Definition sample_failing_paragraph : Paragraph :=
  {| context := sinhala_sri; qas := [sample_missing] |}.

Definition sample_dataset : Dataset :=
  {| version := None;
     data := [{| title := lit "t0"; paragraphs := [sample_failing_paragraph] |};
              {| title := lit "t1";
                 paragraphs := [sample_failing_paragraph; sample_paragraph] |}] |}.

(** What the script makes of [sample_dataset]. *)
Definition sample_cleaned_qa : QA :=
  mk_qa (lit "q1") sinhala_sri
        {| text := sinhala_lanka; answer_start := Some 6 |}.

Definition sample_cleaned_paragraph : Paragraph :=
  {| context := sinhala_context; qas := [sample_cleaned_qa] |}.

Definition sample_cleaned_article : Article :=
  {| title := lit "t1"; paragraphs := [sample_cleaned_paragraph] |}.

Definition sample_cleaned : Dataset :=
  {| version := Some (lit "1.1"); data := [sample_cleaned_article] |}.

Definition sample_reports : list ErrorReport :=
  [report sinhala_sri sample_missing missing_answer
          "Answer text not found in context";
   report sinhala_sri sample_missing missing_answer
          "Answer text not found in context";
   report sinhala_context sample_english found_answer
          "Contains English characters";
   report sinhala_context sample_missing missing_answer
          "Answer text not found in context"].

(** A pair with an empty answer text, and a dataset that holds only it. *)
Definition empty_answer : Answer := {| text := []; answer_start := Some 7 |}.

Definition sample_empty_answer : QA := mk_qa (lit "q4") sinhala_sri empty_answer.

Definition empty_answer_dataset : Dataset :=
  {| version := Some (lit "1.1");
     data := [{| title := lit "t";
                 paragraphs := [{| context := sinhala_context;
                                   qas := [sample_empty_answer] |}] |}] |}.

Definition empty_answer_cleaned : Dataset :=
  {| version := Some (lit "1.1");
     data := [{| title := lit "t";
                 paragraphs :=
                   [{| context := sinhala_context;
                       qas := [mk_qa (lit "q4") sinhala_sri
                                 {| text := []; answer_start := Some 0 |}] |}] |}] |}.

(** ** Further readings of the cleaner *)

(** The same dataset with [g] applied to every pair. *)
Definition map_pairs (g : QA -> QA) (d : Dataset) : Dataset :=
  {| version := version d;
     data := map (fun a =>
                    {| title := title a;
                       paragraphs :=
                         map (fun p => {| context := context p;
                                          qas := map g (qas p) |})
                             (paragraphs a) |})
                 (data d) |}.

(** The pair with the answers after the first one removed. *)
Definition first_answer_only (qa : QA) : QA :=
  {| id := id qa; question := question qa;
     answers := firstn 1 (answers qa) |}.

(** The pairs of a dataset in reading order, each with the context of its
    paragraph. *)
Definition all_pairs (articles : list Article) : list (pystr * QA) :=
  flat_map (fun a =>
              flat_map (fun p => map (fun q => (context p, q)) (qas p))
                       (paragraphs a))
           articles.

(** The report [r] is about the pair [cq]: it has its id, its question, the
    context of its paragraph and its first answer, as it was read. *)
Definition report_from (r : ErrorReport) (cq : pystr * QA) : Prop :=
  err_id r = id (snd cq) /\ err_question r = question (snd cq) /\
  err_context r = fst cq /\
  exists rest, answers (snd cq) = err_answer r :: rest.

(** What a report says of itself is true of what it carries. *)
Definition report_justified (r : ErrorReport) : Prop :=
  (error r = Some (lit "Contains English characters") /\
   (contains_english (err_question r) = true \/
    contains_english (text (err_answer r)) = true)) \/
  (error r = Some (lit "Answer text not found in context") /\
   contains_english (err_question r) = false /\
   contains_english (text (err_answer r)) = false /\
   ~ occurs (err_context r) (text (err_answer r))).

(** A pair with two answers, the second one in English. *)
Definition sample_two_answers : QA :=
  {| id := lit "q5"; question := sinhala_sri;
     answers := [found_answer; {| text := lit "Lanka"; answer_start := None |}] |}.

Definition two_answers_dataset : Dataset :=
  {| version := None;
     data := [{| title := lit "t";
                 paragraphs := [{| context := sinhala_context;
                                   qas := [sample_two_answers; sample_missing] |}] |}] |}.

(** A dataset with a pair that has no answer. *)
Definition no_answer_dataset : Dataset :=
  {| version := None;
     data := [{| title := lit "t";
                 paragraphs :=
                   [{| context := sinhala_context;
                       qas := [sample_missing;
                               {| id := lit "q6"; question := sinhala_sri;
                                  answers := [] |}] |}] |}] |}.

(** * The translation step of [src/translation_pipeline.py]

    The translation service is outside the program.  It is taken as a state
    [service] and a function [translate]: one call of
    [client.translate(batch, target_language='si', source_language='en')]
    followed by the reading of ['translatedText'] in each result.  A call
    gives the translated texts, or raises ([None]); both callers catch every
    exception, so its kind is not kept.  Console output, the progress bar,
    [time.sleep] and the intermediate saves of the output file, which the
    last save overwrites, are left out. *)

(** [range(i, stop, step)] for [step >= 1]; [fuel] bounds the length. *)
Fixpoint range_from (fuel : nat) (i stop step : Z) : list Z :=
  match fuel with
  | O => []
  | S fuel' =>
      if i <? stop then i :: range_from fuel' (i + step) stop step else []
  end.

(** [range(0, stop, step)] *)
Definition py_range (stop step : Z) : list Z :=
  range_from (Z.to_nat stop) 0 stop step.

(** [l[i]], with Python's negative indices; [None] is [IndexError]. *)
Definition getitem {A : Type} (l : list A) (i : Z) : option A :=
  if i <? 0 then
    if 0 <=? len l + i then nth_error l (Z.to_nat (len l + i)) else None
  else nth_error l (Z.to_nat i).

Section Service.
Variable service : Type.
Variable translate : list pystr -> service -> option (list pystr) * service.

(** The loop [for i in range(0, len(texts), batch_size)] of
    [batch_translate_texts], with [batch_size = 128]. *)
Fixpoint translate_batches (idxs : list Z) (texts all_translations : list pystr)
         (sv : service) : option (list pystr) * service :=
  match idxs with
  | [] => (Some all_translations, sv)
  | i :: idxs' =>
      let batch := slice texts i (i + 128) in
      match translate batch sv with
      | (Some translations, sv') =>
          translate_batches idxs' texts (all_translations ++ translations) sv'
      | (None, sv') => (None, sv')
      end
  end.

Definition batch_translate_texts (texts : list pystr) (sv : service)
  : list pystr * service :=
  if negb (truthy texts) then ([], sv)
  else
    match translate_batches (py_range (len texts) 128) texts [] sv with
    | (Some all_translations, sv') => (all_translations, sv')
    | (None, sv') => (texts, sv')
    end.

End Service.

Arguments translate_batches {service} translate idxs texts all_translations sv.
Arguments batch_translate_texts {service} translate texts sv.

(** The texts of the pairs of a paragraph, in the order they are sent: for
    each pair its question, then the texts of its answers. *)
Definition collect_qa_texts (l : list QA) : list pystr :=
  fold_left
    (fun qa_texts qa =>
       fold_left (fun qa_texts answer => qa_texts ++ [text answer])
                 (answers qa) (qa_texts ++ [question qa]))
    l [].

(** The loop [for answer in qa['answers']] that rebuilds the answers from
    the translated texts; [qa_idx] is threaded.  [None] is an exception:
    [IndexError] from [translated_qa_texts[qa_idx]] or [KeyError] from
    [answer['answer_start']]. *)
Fixpoint translate_answers (l : list Answer) (translated_qa_texts : list pystr)
         (qa_idx : Z) (acc : list Answer) : option (list Answer * Z) :=
  match l with
  | [] => Some (acc, qa_idx)
  | answer :: l' =>
      match getitem translated_qa_texts qa_idx, answer_start answer with
      | Some t, Some s =>
          translate_answers l' translated_qa_texts (qa_idx + 1)
            (acc ++ [{| text := t; answer_start := Some s |}])
      | _, _ => None
      end
  end.

(** The loop [for qa in orig_para['qas']] that rebuilds the pairs; the
    result holds the pairs, [qa_idx] and [stats['qa_pairs_processed']]. *)
Fixpoint translate_qas (l : list QA) (translated_qa_texts : list pystr)
         (qa_idx : Z) (acc : list QA) (qa_pairs : Z)
  : option (list QA * Z * Z) :=
  match l with
  | [] => Some (acc, qa_idx, qa_pairs)
  | qa :: l' =>
      match getitem translated_qa_texts qa_idx with
      | None => None
      | Some q =>
          match translate_answers (answers qa) translated_qa_texts
                                  (qa_idx + 1) [] with
          | None => None
          | Some (translated_answers, qa_idx') =>
              translate_qas l' translated_qa_texts qa_idx'
                (acc ++ [{| id := id qa; question := q;
                            answers := translated_answers |}])
                (qa_pairs + 1)
          end
      end
  end.

(** [stats] and the client, the state of a run. *)
Record TState (service : Type) : Type := {
  contexts_processed : Z;
  qa_pairs_processed : Z;
  client : service
}.

Arguments contexts_processed {service} _.
Arguments qa_pairs_processed {service} _.
Arguments client {service} _.

(** [config.get('max_contexts', 1000)] and [config.get('batch_size', 5)]. *)
Record Config : Type := {
  cfg_max_contexts : option Z;
  cfg_batch_size : option Z
}.

Definition max_contexts (config : Config) : Z :=
  match cfg_max_contexts config with
  | Some n => n
  | None => 1000
  end.

Definition batch_size (config : Config) : Z :=
  match cfg_batch_size config with
  | Some n => n
  | None => 5
  end.

Section Pipeline.
Variable service : Type.
Variable translate : list pystr -> service -> option (list pystr) * service.

(** Body of [for idx, (orig_para, trans_context) in enumerate(zip(...))]:
    the texts of the pairs are translated and put back, the paragraph is
    appended to [current_article['paragraphs']]. *)
Definition translate_paragraph (current_paragraphs : list Paragraph)
           (item : Paragraph * pystr) (st : TState service)
  : option (list Paragraph * TState service) :=
  let (orig_para, trans_context) := item in
  let qa_texts := collect_qa_texts (qas orig_para) in
  let (translated_qa_texts, sv) :=
    batch_translate_texts translate qa_texts (client st) in
  match translate_qas (qas orig_para) translated_qa_texts 0 []
                      (qa_pairs_processed st) with
  | None => None
  | Some (translated_qas, _, qa_pairs) =>
      Some (current_paragraphs ++
            [{| context := trans_context; qas := translated_qas |}],
            {| contexts_processed := contexts_processed st + 1;
               qa_pairs_processed := qa_pairs;
               client := sv |})
  end.

Fixpoint translate_paragraphs (items : list (Paragraph * pystr))
         (current_paragraphs : list Paragraph) (st : TState service)
  : option (list Paragraph * TState service) :=
  match items with
  | [] => Some (current_paragraphs, st)
  | item :: items' =>
      match translate_paragraph current_paragraphs item st with
      | None => None
      | Some (current_paragraphs', st') =>
          translate_paragraphs items' current_paragraphs' st'
      end
  end.

(** The processing of one batch of paragraphs; the script has this code
    twice, in the loop and after it for the last batch. *)
Definition process_batch (current_batch_contexts : list pystr)
           (current_batch_paras current_paragraphs : list Paragraph)
           (st : TState service)
  : option (list Paragraph * TState service) :=
  let (translated_contexts, sv) :=
    batch_translate_texts translate current_batch_contexts (client st) in
  translate_paragraphs (combine current_batch_paras translated_contexts)
    current_paragraphs
    {| contexts_processed := contexts_processed st;
       qa_pairs_processed := qa_pairs_processed st;
       client := sv |}.

(** The loop [for para in article['paragraphs']]; it returns the two batch
    lists and the paragraphs of the article as the loop leaves them, by
    exhaustion or by [break]. *)
Fixpoint paragraphs_loop (config : Config) (paras : list Paragraph)
         (current_batch_contexts : list pystr)
         (current_batch_paras current_paragraphs : list Paragraph)
         (st : TState service)
  : option (list pystr * list Paragraph * list Paragraph * TState service) :=
  match paras with
  | [] => Some (current_batch_contexts, current_batch_paras,
                current_paragraphs, st)
  | para :: paras' =>
      if contexts_processed st >=? max_contexts config then
        Some (current_batch_contexts, current_batch_paras,
              current_paragraphs, st)
      else
        let current_batch_contexts := current_batch_contexts ++ [context para] in
        let current_batch_paras := current_batch_paras ++ [para] in
        if len current_batch_contexts >=? batch_size config then
          match process_batch current_batch_contexts current_batch_paras
                              current_paragraphs st with
          | None => None
          | Some (current_paragraphs', st') =>
              paragraphs_loop config paras' [] [] current_paragraphs' st'
          end
        else
          paragraphs_loop config paras' current_batch_contexts
                          current_batch_paras current_paragraphs st
  end.

(** One article: the loop over its paragraphs, then the last batch. *)
Definition translate_article (config : Config) (article : Article)
           (st : TState service)
  : option (list Paragraph * TState service) :=
  match paragraphs_loop config (paragraphs article) [] [] [] st with
  | None => None
  | Some (current_batch_contexts, current_batch_paras,
          current_paragraphs, st') =>
      if truthy current_batch_contexts then
        process_batch current_batch_contexts current_batch_paras
                      current_paragraphs st'
      else Some (current_paragraphs, st')
  end.

(** The loop [for article in squad_data['data']].  The result is
    [translated_data['data']] and the final state, [None] when an exception
    reached the handler, which saves [translated_data] as it stands. *)
Fixpoint articles_loop (config : Config) (articles translated : list Article)
         (st : TState service)
  : list Article * option (TState service) :=
  match articles with
  | [] => (translated, Some st)
  | article :: articles' =>
      if contexts_processed st >=? max_contexts config then
        (translated, Some st)
      else
        match translate_article config article st with
        | None => (translated, None)
        | Some (current_paragraphs, st') =>
            articles_loop config articles'
              (if truthy current_paragraphs
               then translated ++
                    [{| title := title article;
                        paragraphs := current_paragraphs |}]
               else translated)
              st'
        end
  end.

(** [translate_squad_batch], from the loaded configuration and dataset: the
    dataset written to the output file, and the final statistics when the
    run completes. *)
Definition translate_squad_batch (config : Config) (squad_data : Dataset)
           (sv : service) : Dataset * option (TState service) :=
  let (translated, final) :=
    articles_loop config (data squad_data) []
      {| contexts_processed := 0; qa_pairs_processed := 0; client := sv |} in
  ({| version := Some (default_version squad_data); data := translated |},
   final).

End Pipeline.

Arguments translate_paragraph {service} translate current_paragraphs item st.
Arguments translate_paragraphs {service} translate items current_paragraphs st.
Arguments process_batch {service} translate current_batch_contexts
  current_batch_paras current_paragraphs st.
Arguments paragraphs_loop {service} translate config paras
  current_batch_contexts current_batch_paras current_paragraphs st.
Arguments translate_article {service} translate config article st.
Arguments articles_loop {service} translate config articles translated st.
Arguments translate_squad_batch {service} translate config squad_data sv.

(** ** Services to compare with *)

(** A service that answers every batch text by text with [f] and never
    raises. *)
Definition pointwise (f : pystr -> pystr)
  : list pystr -> unit -> option (list pystr) * unit :=
  fun batch sv => (Some (map f batch), sv).

(** A service that raises on every call. *)
Definition unavailable : list pystr -> unit -> option (list pystr) * unit :=
  fun batch sv => (None, sv).

(** A service that keeps the list of the batches it was called with and
    answers as [answer] says from the calls made before and the batch. *)
Definition recording
           (answer : list (list pystr) -> list pystr -> option (list pystr))
  : list pystr -> list (list pystr)
    -> option (list pystr) * list (list pystr) :=
  fun batch calls => (answer calls batch, calls ++ [batch]).

(** The pair with its texts translated by [f], ids and offsets kept. *)
Definition translated_qa (f : pystr -> pystr) (qa : QA) : QA :=
  {| id := id qa;
     question := f (question qa);
     answers := map (fun a => {| text := f (text a);
                                 answer_start := answer_start a |})
                    (answers qa) |}.

Definition translated_paragraph (f : pystr -> pystr) (p : Paragraph)
  : Paragraph :=
  {| context := f (context p); qas := map (translated_qa f) (qas p) |}.

Definition translated_article (f : pystr -> pystr) (a : Article) : Article :=
  {| title := title a;
     paragraphs := map (translated_paragraph f) (paragraphs a) |}.

(** Every answer has its ['answer_start']. *)
Definition qa_has_starts (qa : QA) : bool :=
  forallb (fun a => match answer_start a with
                    | Some _ => true
                    | None => false
                    end) (answers qa).

Definition count_paragraphs (articles : list Article) : Z :=
  len (flat_map paragraphs articles).

(** A toy translation: every character moved up by 3328 code points. *)
Definition toy_translation (s : pystr) : pystr := map (N.add 3328) s.

Definition english_paragraph : Paragraph :=
  {| context := lit "Paris is the capital.";
     qas := [{| id := lit "e1"; question := lit "What is the capital?";
                answers := [{| text := lit "Paris"; answer_start := Some 0 |};
                            {| text := lit "capital"; answer_start := Some 13 |}] |};
             {| id := lit "e2"; question := lit "What is Paris?";
                answers := [{| text := lit "the capital";
                               answer_start := Some 9 |}] |}] |}.

Definition english_dataset : Dataset :=
  {| version := Some (lit "1.1");
     data := [{| title := lit "Paris";
                 paragraphs := [english_paragraph; english_paragraph;
                                english_paragraph] |};
              {| title := lit "Empty"; paragraphs := [] |};
              {| title := lit "Paris again";
                 paragraphs := [english_paragraph] |}] |}.

Definition default_config : Config :=
  {| cfg_max_contexts := None; cfg_batch_size := None |}.

Definition small_config : Config :=
  {| cfg_max_contexts := Some 1; cfg_batch_size := Some 2 |}.

(** ** What translation keeps *)

(** The translated pair [t] has the id of [q] and, answer by answer, its
    recorded offsets. *)
Definition translated_qa_of (t q : QA) : Prop :=
  id t = id q /\
  map answer_start (answers t) = map answer_start (answers q).

Definition translated_paragraph_of (t p : Paragraph) : Prop :=
  Forall2 translated_qa_of (qas t) (qas p).

Definition translated_article_of (t a : Article) : Prop :=
  title t = title a /\
  embeds translated_paragraph_of (paragraphs t) (paragraphs a).

(** Three hundred one-letter texts. *)
Definition many_texts : list pystr := repeat [65%N] 300.

(** ** Facts about the scan *)

Lemma len_nonneg {A : Type} (s : list A) : 0 <= len s.
Proof. unfold len. lia. Qed.

Lemma len_app {A : Type} (s t : list A) : len (s ++ t) = len s + len t.
Proof. unfold len. rewrite length_app. lia. Qed.

Lemma len_cons {A : Type} (x : A) (s : list A) : len (x :: s) = 1 + len s.
Proof. unfold len. cbn [List.length]. lia. Qed.

Lemma startswith_spec (s sub : pystr) :
  startswith s sub = true <-> exists post, s = sub ++ post.
Proof.
  revert s. induction sub as [|y sub IH]; intros s.
  - split; [intros _; now exists s | intros _; now destruct s].
  - destruct s as [|x s]; cbn.
    + split; [discriminate | intros [post H]; discriminate].
    + rewrite andb_true_iff, N.eqb_eq, IH. split.
      * intros [-> [post ->]]. now exists post.
      * intros [post H]. injection H as -> ->. split; [reflexivity | now exists post].
Qed.

Lemma occurs_at_0 (s sub : pystr) :
  occurs_at s sub 0 <-> startswith s sub = true.
Proof.
  rewrite startswith_spec. split.
  - intros (pre & post & -> & H). destruct pre; [now exists post | ].
    rewrite len_cons in H. pose proof (len_nonneg pre). lia.
  - intros [post ->]. now exists [], post.
Qed.

Lemma occurs_at_cons (x : char) (s sub : pystr) (i : Z) :
  occurs_at s sub i -> occurs_at (x :: s) sub (i + 1).
Proof.
  intros (pre & post & -> & H). exists (x :: pre), post.
  rewrite len_cons. split; [reflexivity | lia].
Qed.

Lemma occurs_at_uncons (x : char) (s sub : pystr) (i : Z) :
  occurs_at (x :: s) sub i -> i <> 0 -> occurs_at s sub (i - 1).
Proof.
  intros (pre & post & E & H) Hi. destruct pre as [|p pre].
  - cbn in H. congruence.
  - cbn in E. injection E as -> ->. exists pre, post.
    rewrite len_cons in H. split; [reflexivity | lia].
Qed.

Lemma occurs_at_nonneg (s sub : pystr) (i : Z) : occurs_at s sub i -> 0 <= i.
Proof. intros (pre & post & _ & <-). apply len_nonneg. Qed.

(** The scan either fails with [-1], when there is no occurrence in the rest of
    the string, or stops at the lowest occurrence. *)
Lemma find_from_spec (sub s : pystr) (i : Z) :
  (find_from i s sub = -1 /\ forall j, ~ occurs_at s sub j) \/
  (exists k, find_from i s sub = i + k /\ occurs_at s sub k /\
             forall j, occurs_at s sub j -> k <= j).
Proof.
  revert i. induction s as [|x s IH]; intros i.
  - cbn [find_from]. destruct (startswith [] sub) eqn:E.
    + right. exists 0. split; [lia | ]. split; [now apply occurs_at_0 | ].
      intros j. apply occurs_at_nonneg.
    + left. split; [reflexivity | ]. intros j (pre & post & H & Hj).
      destruct pre; [ | discriminate].
      assert (startswith [] sub = true) by (apply startswith_spec; now exists post).
      congruence.
  - cbn [find_from]. destruct (startswith (x :: s) sub) eqn:E.
    + right. exists 0. split; [lia | ]. split; [now apply occurs_at_0 | ].
      intros j. apply occurs_at_nonneg.
    + destruct (IH (i + 1)) as [[F N] | (k & F & O & L)].
      * left. split; [exact F | ]. intros j Hj.
        destruct (Z.eq_dec j 0) as [-> | Hne].
        -- apply occurs_at_0 in Hj. congruence.
        -- exact (N _ (occurs_at_uncons _ _ _ _ Hj Hne)).
      * right. exists (k + 1). split; [lia | ].
        split; [now apply occurs_at_cons | ].
        intros j Hj. destruct (Z.eq_dec j 0) as [-> | Hne].
        -- apply occurs_at_0 in Hj. congruence.
        -- pose proof (L _ (occurs_at_uncons _ _ _ _ Hj Hne)). lia.
Qed.

Lemma find_spec (s sub : pystr) :
  (find s sub = -1 /\ ~ occurs s sub) \/
  (0 <= find s sub /\ occurs_at s sub (find s sub) /\
   forall j, occurs_at s sub j -> find s sub <= j).
Proof.
  unfold find. destruct (find_from_spec sub s 0) as [[F N] | (k & F & O & L)].
  - left. split; [exact F | ]. intros [j Hj]. exact (N j Hj).
  - right. rewrite F. cbn. split; [now apply occurs_at_nonneg with s sub | ].
    split; assumption.
Qed.

Lemma find_answer_span_found (c a : pystr) (s e : Z) :
  find_answer_span c a = Some (s, e) ->
  s = find c a /\ e = s + len a /\ occurs_at c a s /\
  forall j, occurs_at c a j -> s <= j.
Proof.
  unfold find_answer_span. cbv zeta.
  destruct (find_spec c a) as [[F _] | (P & O & L)].
  - rewrite F. cbn. discriminate.
  - destruct (find c a =? -1) eqn:E; [discriminate | ].
    intros H. injection H as <- <-. repeat split; assumption.
Qed.

Lemma find_answer_span_none (c a : pystr) :
  find_answer_span c a = None <-> ~ occurs c a.
Proof.
  unfold find_answer_span. cbv zeta.
  destruct (find_spec c a) as [[F N] | (P & O & L)].
  - rewrite F. cbn. tauto.
  - destruct (find c a =? -1) eqn:E; [lia | ].
    split; [discriminate | ]. intros N. exfalso. apply N. now exists (find c a).
Qed.

Lemma find_answer_span_occurs (c a : pystr) :
  occurs c a ->
  find_answer_span c a = Some (find c a, find c a + len a).
Proof.
  intros O. destruct (find_answer_span c a) as [[s e] | ] eqn:E.
  - apply find_answer_span_found in E. destruct E as (-> & -> & _). reflexivity.
  - apply find_answer_span_none in E. contradiction.
Qed.

(** ** The script filter *)

Lemma latin_pattern_matches (c : char) :
  class_matches latin_pattern c = true <-> latin_letter c.
Proof.
  unfold class_matches, latin_pattern, latin_letter. cbn [existsb item_matches].
  rewrite !orb_true_iff, !andb_true_iff, !N.leb_le. intuition discriminate.
Qed.

Lemma re_search_some (cls : list class_item) (text : pystr) (pos : Z) :
  bool_of_match (re_search cls pos text) = true <->
  exists c, In c text /\ class_matches cls c = true.
Proof.
  revert pos. induction text as [|c text IH]; intros pos; cbn [re_search].
  - cbn. split; [discriminate | intros (c & [] & _)].
  - destruct (class_matches cls c) eqn:E.
    + cbn. split; [intros _ | reflexivity]. exists c. split; [now left | exact E].
    + rewrite IH. split.
      * intros (c' & I & H). exists c'. split; [now right | exact H].
      * intros (c' & [-> | I] & H); [congruence | ]. now exists c'.
Qed.

(** ** The loops of [clean_squad_dataset] against the filter reading *)

Section ForEach.
Context {A C : Type}.
Variable ok : A -> bool.
Variable out : A -> list C.
Variable rep : A -> list ErrorReport.
Variable body : list C -> A -> M (list C).

Hypothesis body_spec : forall acc x st,
  body acc x st =
  if ok x then Ok (acc ++ out x, st ++ rep x) else Raise IndexError.

(** A loop whose body appends to its accumulator and to [error_reports], or
    raises, appends the concatenation of what its iterations append, and
    raises as soon as one iteration does. *)
Lemma for_each_spec (xs : list A) (acc : list C) (st : list ErrorReport) :
  for_each xs body acc st =
  if forallb ok xs
  then Ok (acc ++ flat_map out xs, st ++ flat_map rep xs)
  else Raise IndexError.
Proof.
  revert acc st. induction xs as [|x xs IH]; intros acc st.
  - cbn. now rewrite !app_nil_r.
  - cbn [for_each forallb flat_map]. unfold bind. rewrite body_spec.
    destruct (ok x); cbn [andb]; [ | reflexivity].
    rewrite IH. now rewrite <- !app_assoc.
Qed.
End ForEach.

Lemma flat_map_filter_map {A B : Type} (f : A -> option B) (l : list A) :
  flat_map (fun x => filter_map f [x]) l = filter_map f l.
Proof.
  induction l as [|x l IH]; [reflexivity | ].
  cbn [flat_map]. rewrite IH. cbn. now destruct (f x).
Qed.

Lemma flat_map_filter {A B : Type} (f : A -> B) (p : B -> bool) (l : list A) :
  flat_map (fun x => if p (f x) then [f x] else []) l = filter p (map f l).
Proof.
  induction l as [|x l IH]; [reflexivity | ].
  cbn [flat_map map filter]. rewrite IH. now destruct (p (f x)).
Qed.

Lemma filter_map_app {A B : Type} (f : A -> option B) (l k : list A) :
  filter_map f (l ++ k) = filter_map f l ++ filter_map f k.
Proof.
  induction l as [|x l IH]; [reflexivity | ].
  cbn [app filter_map]. rewrite IH. now destruct (f x).
Qed.

Lemma qa_body_spec (ctx : pystr) (acc : list QA) (qa : QA)
      (st : list ErrorReport) :
  qa_body ctx acc qa st =
  if has_answer qa
  then Ok (acc ++ filter_map (spec_survivor ctx) [qa],
           st ++ filter_map (spec_report ctx) [qa])
  else Raise IndexError.
Proof.
  unfold qa_body, has_answer, spec_survivor, spec_report, rejected_by_filter.
  cbn [filter_map]. destruct (answers qa) as [|answer rest]; [reflexivity | ].
  cbn [getitem0 truthy]. unfold bind at 1. cbn [ret].
  destruct (contains_english (question qa) || contains_english (text answer)).
  - unfold bind, append_error, ret, report. now rewrite app_nil_r.
  - unfold verify_and_correct_example. cbv zeta.
    destruct (find_answer_span ctx (text answer)) as [[s e] | ].
    + cbn. unfold bind, ret. now rewrite app_nil_r.
    + cbn. unfold bind, append_error, ret, report. now rewrite app_nil_r.
Qed.

Lemma qa_loop_spec (ctx : pystr) (l : list QA) (acc : list QA)
      (st : list ErrorReport) :
  for_each l (qa_body ctx) acc st =
  if forallb has_answer l
  then Ok (acc ++ filter_map (spec_survivor ctx) l,
           st ++ filter_map (spec_report ctx) l)
  else Raise IndexError.
Proof.
  rewrite (for_each_spec has_answer
             (fun qa => filter_map (spec_survivor ctx) [qa])
             (fun qa => filter_map (spec_report ctx) [qa])).
  - now rewrite !flat_map_filter_map.
  - intros. apply qa_body_spec.
Qed.

Lemma para_body_spec (acc : list Paragraph) (p : Paragraph)
      (st : list ErrorReport) :
  para_body acc p st =
  if paragraph_has_answers p
  then Ok (acc ++ (if truthy (qas (spec_clean_paragraph p))
                   then [spec_clean_paragraph p] else []),
           st ++ spec_reports_paragraph p)
  else Raise IndexError.
Proof.
  unfold para_body, paragraph_has_answers. cbv zeta. unfold bind at 1.
  rewrite qa_loop_spec. destruct (forallb has_answer (qas p)); [ | reflexivity].
  cbn [app]. unfold spec_clean_paragraph, spec_reports_paragraph. cbn [qas].
  destruct (truthy _); unfold ret; [reflexivity | now rewrite app_nil_r].
Qed.

Lemma para_loop_spec (ps : list Paragraph) (acc : list Paragraph)
      (st : list ErrorReport) :
  for_each ps para_body acc st =
  if forallb paragraph_has_answers ps
  then Ok (acc ++ spec_clean_paragraphs ps,
           st ++ flat_map spec_reports_paragraph ps)
  else Raise IndexError.
Proof.
  rewrite (for_each_spec paragraph_has_answers
             (fun p => if truthy (qas (spec_clean_paragraph p))
                       then [spec_clean_paragraph p] else [])
             spec_reports_paragraph).
  - unfold spec_clean_paragraphs.
    now rewrite (flat_map_filter spec_clean_paragraph (fun p => truthy (qas p))).
  - intros. apply para_body_spec.
Qed.

Lemma article_body_spec (acc : list Article) (a : Article)
      (st : list ErrorReport) :
  article_body acc a st =
  if article_has_answers a
  then Ok (acc ++ (if truthy (paragraphs (spec_clean_article a))
                   then [spec_clean_article a] else []),
           st ++ spec_reports_article a)
  else Raise IndexError.
Proof.
  unfold article_body, article_has_answers. unfold bind at 1.
  rewrite para_loop_spec.
  destruct (forallb paragraph_has_answers (paragraphs a)); [ | reflexivity].
  cbn [app]. unfold spec_clean_article, spec_reports_article. cbn [paragraphs].
  destruct (truthy _); unfold ret; [reflexivity | now rewrite app_nil_r].
Qed.

Lemma article_loop_spec (l : list Article) (acc : list Article)
      (st : list ErrorReport) :
  for_each l article_body acc st =
  if forallb article_has_answers l
  then Ok (acc ++ spec_clean_articles l, st ++ spec_reports l)
  else Raise IndexError.
Proof.
  rewrite (for_each_spec article_has_answers
             (fun a => if truthy (paragraphs (spec_clean_article a))
                       then [spec_clean_article a] else [])
             spec_reports_article).
  - unfold spec_clean_articles.
    now rewrite (flat_map_filter spec_clean_article
                   (fun a => truthy (paragraphs a))).
  - intros. apply article_body_spec.
Qed.

(** The run of the script is the filter of the specification, and it raises
    exactly when some pair has no answer. *)
Lemma clean_squad_dataset_spec (d : Dataset) :
  clean_squad_dataset d =
  if all_have_answers d
  then Ok ({| version := Some (default_version d);
              data := spec_clean_articles (data d) |},
           spec_reports (data d))
  else Raise IndexError.
Proof.
  unfold clean_squad_dataset, all_have_answers. unfold bind.
  rewrite article_loop_spec.
  destruct (forallb article_has_answers (data d)); reflexivity.
Qed.

(** ** List facts used below *)

Lemma in_filter_map {A B : Type} (f : A -> option B) (l : list A) (y : B) :
  In y (filter_map f l) <-> exists x, In x l /\ f x = Some y.
Proof.
  induction l as [|x l IH]; cbn [filter_map].
  - split; [intros [] | intros (x & [] & _)].
  - destruct (f x) as [y'|] eqn:E; cbn [In]; rewrite IH; split.
    + intros [<- | (x' & I & H)]; [exists x | exists x']; intuition.
    + intros (x' & [-> | I] & H); [left; congruence | right; now exists x'].
    + intros (x' & I & H). exists x'. intuition.
    + intros (x' & [-> | I] & H); [congruence | now exists x'].
Qed.

Lemma filter_map_map {A B C : Type} (g : A -> B) (f : B -> option C)
      (l : list A) :
  filter_map f (map g l) = filter_map (fun x => f (g x)) l.
Proof.
  induction l as [|x l IH]; [reflexivity | ].
  cbn [map filter_map]. now rewrite IH.
Qed.

Lemma filter_map_ext {A B : Type} (f g : A -> option B) (l : list A) :
  (forall x, f x = g x) -> filter_map f l = filter_map g l.
Proof.
  intros E. induction l as [|x l IH]; [reflexivity | ].
  cbn [filter_map]. now rewrite E, IH.
Qed.

Lemma forallb_map_ext {A B : Type} (g : A -> B) (f : B -> bool) (h : A -> bool)
      (l : list A) :
  (forall x, f (g x) = h x) -> forallb f (map g l) = forallb h l.
Proof.
  intros E. induction l as [|x l IH]; [reflexivity | ].
  cbn [map forallb]. now rewrite E, IH.
Qed.

Lemma truthy_true {A : Type} (l : list A) : truthy l = true <-> l <> [].
Proof. destruct l; cbn; split; congruence. Qed.

Lemma embeds_filter_map {A B : Type} (R : B -> A -> Prop) (f : A -> option B)
      (l : list A) :
  (forall x y, In x l -> f x = Some y -> R y x) ->
  embeds R (filter_map f l) l.
Proof.
  induction l as [|x l IH]; intros H; cbn [filter_map].
  - constructor.
  - assert (IH' : embeds R (filter_map f l) l).
    { apply IH. intros x' y I. apply H. now right. }
    destruct (f x) as [y|] eqn:E.
    + apply embeds_keep; [apply H; [now left | exact E] | exact IH'].
    + now apply embeds_skip.
Qed.

Lemma embeds_filter_image {A B : Type} (R : B -> A -> Prop) (f : A -> B)
      (p : B -> bool) (l : list A) :
  (forall x, In x l -> R (f x) x) ->
  embeds R (filter p (map f l)) l.
Proof.
  induction l as [|x l IH]; intros H; cbn [map filter].
  - constructor.
  - assert (IH' : embeds R (filter p (map f l)) l).
    { apply IH. intros x' I. apply H. now right. }
    destruct (p (f x)).
    + apply embeds_keep; [apply H; now left | exact IH'].
    + now apply embeds_skip.
Qed.

(** ** One pair *)

Lemma spec_survivor_some (ctx : pystr) (qa c : QA) :
  spec_survivor ctx qa = Some c ->
  exists answer rest s,
    answers qa = answer :: rest /\
    rejected_by_filter qa answer = false /\
    find_answer_span ctx (text answer) = Some (s, s + len (text answer)) /\
    c = {| id := id qa; question := question qa;
           answers := [{| text := text answer; answer_start := Some s |}] |}.
Proof.
  unfold spec_survivor. destruct (answers qa) as [|answer rest]; [discriminate | ].
  destruct (rejected_by_filter qa answer) eqn:F; [discriminate | ].
  destruct (find_answer_span ctx (text answer)) as [[s e]|] eqn:E; [ | discriminate].
  intros H. injection H as <-. exists answer, rest, s.
  destruct (find_answer_span_found _ _ _ _ E) as (_ & -> & _).
  repeat split; trivial.
Qed.

(** A pair with an answer ends in exactly one of the two outputs. *)
Lemma survivor_or_report (ctx : pystr) (qa : QA) :
  has_answer qa = true ->
  len (filter_map (spec_survivor ctx) [qa]) +
  len (filter_map (spec_report ctx) [qa]) = 1.
Proof.
  unfold has_answer, spec_survivor, spec_report. cbn [filter_map].
  destruct (answers qa) as [|answer rest]; [discriminate | intros _].
  destruct (rejected_by_filter qa answer); [reflexivity | ].
  destruct (find_answer_span ctx (text answer)) as [[s e]|]; reflexivity.
Qed.

Lemma spec_survivor_forget (ctx : pystr) (qa : QA) :
  spec_survivor ctx (forget_qa qa) = spec_survivor ctx qa.
Proof.
  unfold spec_survivor, forget_qa, rejected_by_filter. cbn [answers question id].
  destruct (answers qa) as [|answer rest]; reflexivity.
Qed.

Lemma has_answer_forget (qa : QA) : has_answer (forget_qa qa) = has_answer qa.
Proof.
  unfold has_answer, forget_qa. cbn [answers]. now destruct (answers qa).
Qed.

(** ** Whole runs *)

Lemma clean_ok_inv (d cleaned : Dataset) (reports : list ErrorReport) :
  clean_squad_dataset d = Ok (cleaned, reports) ->
  all_have_answers d = true /\
  cleaned = {| version := Some (default_version d);
               data := spec_clean_articles (data d) |} /\
  reports = spec_reports (data d).
Proof.
  rewrite clean_squad_dataset_spec.
  destruct (all_have_answers d); [ | discriminate].
  intros H. injection H as <- <-. repeat split.
Qed.

Lemma all_have_answers_iff (d : Dataset) :
  all_have_answers d = true <->
  forall a p q, In a (data d) -> In p (paragraphs a) -> In q (qas p) ->
                answers q <> [].
Proof.
  unfold all_have_answers, article_has_answers, paragraph_has_answers, has_answer.
  rewrite forallb_forall. split.
  - intros H a p q Ia Ip Iq. apply truthy_true.
    specialize (H a Ia). rewrite forallb_forall in H.
    specialize (H p Ip). rewrite forallb_forall in H. exact (H q Iq).
  - intros H a Ia. apply forallb_forall. intros p Ip.
    apply forallb_forall. intros q Iq. apply truthy_true. now apply (H a p q).
Qed.

Lemma in_cleaned (l : list Article) (a : Article) (p : Paragraph) (q : QA) :
  In a (spec_clean_articles l) -> In p (paragraphs a) -> In q (qas p) ->
  exists a0 p0 q0,
    In a0 l /\ In p0 (paragraphs a0) /\ In q0 (qas p0) /\
    title a = title a0 /\ context p = context p0 /\
    spec_survivor (context p0) q0 = Some q.
Proof.
  unfold spec_clean_articles. rewrite filter_In, in_map_iff.
  intros [(a0 & <- & Ia) _]. cbn [spec_clean_article paragraphs].
  unfold spec_clean_paragraphs. rewrite filter_In, in_map_iff.
  intros [(p0 & <- & Ip) _]. cbn [spec_clean_paragraph qas].
  rewrite in_filter_map. intros (q0 & Iq & S).
  exists a0, p0, q0. repeat split; assumption.
Qed.

Lemma forget_clean_paragraph (p : Paragraph) :
  spec_clean_paragraph (forget_paragraph p) = spec_clean_paragraph p.
Proof.
  unfold spec_clean_paragraph, forget_paragraph. cbn [context qas]. f_equal.
  rewrite filter_map_map. apply filter_map_ext. intros q.
  apply spec_survivor_forget.
Qed.

Lemma forget_clean_article (a : Article) :
  spec_clean_article (forget_article a) = spec_clean_article a.
Proof.
  unfold spec_clean_article, forget_article. cbn [title paragraphs]. f_equal.
  unfold spec_clean_paragraphs. rewrite map_map. f_equal.
  apply map_ext. intros p. apply forget_clean_paragraph.
Qed.

Lemma forget_clean_articles (l : list Article) :
  spec_clean_articles (map forget_article l) = spec_clean_articles l.
Proof.
  unfold spec_clean_articles. rewrite map_map. f_equal.
  apply map_ext. intros a. apply forget_clean_article.
Qed.

Lemma forget_all_have_answers (d : Dataset) :
  all_have_answers (forget_starts d) = all_have_answers d.
Proof.
  unfold all_have_answers, forget_starts. cbn [data].
  apply forallb_map_ext. intros a.
  unfold article_has_answers, forget_article. cbn [paragraphs].
  apply forallb_map_ext. intros p.
  unfold paragraph_has_answers, forget_paragraph. cbn [qas].
  apply forallb_map_ext. intros q. apply has_answer_forget.
Qed.

(** ** The span locator *)

(** C1: when the answer text occurs in the context, [find_answer_span] returns
    [(s, s + len answer)] with [s] the lowest index of an occurrence; every
    pair of the cleaned dataset carries that index, computed in the context of
    its paragraph, as the [answer_start] of its single answer; and the cleaned
    dataset is the same when every recorded [answer_start] of the input is
    removed, so the recorded offsets play no part in it. *)
Theorem first_occurrence_replaces_recorded_offset :
  (forall c a : pystr,
     occurs c a ->
     exists s, find_answer_span c a = Some (s, s + len a) /\
               occurs_at c a s /\
               forall j, occurs_at c a j -> s <= j) /\
  (forall (d cleaned : Dataset) (reports : list ErrorReport),
     clean_squad_dataset d = Ok (cleaned, reports) ->
     forall a p q,
       In a (data cleaned) -> In p (paragraphs a) -> In q (qas p) ->
       exists t s,
         answers q = [{| text := t; answer_start := Some s |}] /\
         find_answer_span (context p) t = Some (s, s + len t)) /\
  (forall d : Dataset,
     cleaned_of (clean_squad_dataset (forget_starts d)) =
     cleaned_of (clean_squad_dataset d)).
Proof.
  split; [ | split].
  - intros c a O. exists (find c a).
    pose proof (find_answer_span_occurs c a O) as E. split; [exact E | ].
    destruct (find_answer_span_found _ _ _ _ E) as (_ & _ & Oa & L).
    split; assumption.
  - intros d cleaned reports H a p q Ia Ip Iq.
    destruct (clean_ok_inv _ _ _ H) as (_ & -> & _). cbn [data] in Ia.
    destruct (in_cleaned _ _ _ _ Ia Ip Iq) as (a0 & p0 & q0 & _ & _ & _ & _ & Ec & S).
    destruct (spec_survivor_some _ _ _ S) as (answer & rest & s & _ & _ & F & ->).
    exists (text answer), s. rewrite Ec. split; [reflexivity | exact F].
  - intros d. rewrite !clean_squad_dataset_spec, forget_all_have_answers.
    destruct (all_have_answers d); [ | reflexivity].
    cbn [cleaned_of forget_starts data]. rewrite forget_clean_articles.
    reflexivity.
Qed.

Lemma first_occurrence_witness :
  (exists s, find_answer_span sinhala_context sinhala_lanka
             = Some (s, s + len sinhala_lanka) /\
             occurs_at sinhala_context sinhala_lanka s /\
             forall j, occurs_at sinhala_context sinhala_lanka j -> s <= j) /\
  (exists t s,
     answers sample_cleaned_qa = [{| text := t; answer_start := Some s |}] /\
     find_answer_span (context sample_cleaned_paragraph) t = Some (s, s + len t)).
Proof.
  split.
  - apply (proj1 first_occurrence_replaces_recorded_offset).
    exists 6, (sinhala_sri ++ [32%N]), []. split; reflexivity.
  - apply (proj1 (proj2 first_occurrence_replaces_recorded_offset)
             sample_dataset sample_cleaned sample_reports eq_refl
             sample_cleaned_article sample_cleaned_paragraph sample_cleaned_qa);
      simpl; auto.
Defined.

(** C10: a span returned by [find_answer_span] lies inside the context, has
    the length of the answer, and the slice of the context it designates is
    the answer. *)
Theorem find_answer_span_round_trip (c a : pystr) (s e : Z) :
  find_answer_span c a = Some (s, e) ->
  0 <= s /\ e = s + len a /\ e <= len c /\ slice c s e = a.
Proof.
  intros H. destruct (find_answer_span_found _ _ _ _ H) as (_ & -> & O & _).
  destruct O as (pre & post & -> & <-).
  split; [apply len_nonneg | ]. split; [reflexivity | ]. split.
  - rewrite !len_app. pose proof (len_nonneg post). lia.
  - unfold slice, len. rewrite Nat2Z.id.
    replace (Z.to_nat _) with (List.length a) by lia.
    rewrite skipn_app, skipn_all, Nat.sub_diag. cbn [app skipn].
    rewrite firstn_app, firstn_all, Nat.sub_diag. cbn [firstn].
    apply app_nil_r.
Qed.

Lemma find_answer_span_round_trip_witness :
  0 <= 6 /\ 10 = 6 + len sinhala_lanka /\ 10 <= len sinhala_context /\
  slice sinhala_context 6 10 = sinhala_lanka.
Proof.
  apply (find_answer_span_round_trip sinhala_context sinhala_lanka 6 10).
  reflexivity.
Defined.

(** ** A pair in its place *)

Lemma all_have_answers_with v as1 t ps1 ctx l ps2 as2 :
  all_have_answers (dataset_with v as1 t ps1 ctx l ps2 as2) =
  forallb article_has_answers as1 &&
  (forallb paragraph_has_answers ps1 &&
   (forallb has_answer l && forallb paragraph_has_answers ps2) &&
   forallb article_has_answers as2).
Proof.
  unfold all_have_answers, dataset_with. cbn [data].
  rewrite forallb_app. cbn [forallb]. unfold article_has_answers at 2.
  cbn [paragraphs]. rewrite forallb_app. cbn [forallb].
  unfold paragraph_has_answers at 2. cbn [qas].
  now rewrite <- !andb_assoc.
Qed.

Lemma spec_reports_with v as1 t ps1 ctx l ps2 as2 :
  spec_reports (data (dataset_with v as1 t ps1 ctx l ps2 as2)) =
  (spec_reports as1 ++ flat_map spec_reports_paragraph ps1) ++
  filter_map (spec_report ctx) l ++
  (flat_map spec_reports_paragraph ps2 ++ spec_reports as2).
Proof.
  unfold spec_reports, dataset_with. cbn [data].
  rewrite flat_map_app. cbn [flat_map]. unfold spec_reports_article at 2.
  cbn [paragraphs]. rewrite flat_map_app. cbn [flat_map].
  unfold spec_reports_paragraph at 2. cbn [context qas].
  now rewrite <- !app_assoc.
Qed.

Lemma spec_clean_with v as1 t ps1 ctx l l' ps2 as2 :
  filter_map (spec_survivor ctx) l = filter_map (spec_survivor ctx) l' ->
  spec_clean_articles (data (dataset_with v as1 t ps1 ctx l ps2 as2)) =
  spec_clean_articles (data (dataset_with v as1 t ps1 ctx l' ps2 as2)).
Proof.
  intros E. unfold spec_clean_articles, dataset_with. cbn [data].
  rewrite !map_app. cbn [map]. unfold spec_clean_article at 2 5.
  cbn [title paragraphs]. unfold spec_clean_paragraphs at 1 2.
  rewrite !map_app. cbn [map]. unfold spec_clean_paragraph at 2 5.
  cbn [context qas]. now rewrite E.
Qed.

(** A pair that does not survive leaves the cleaned dataset as if it had not
    been in the input, and its report stands among the reports of the run. *)
Lemma rejected_pair_removed v as1 t ps1 ctx l1 qa l2 ps2 as2 r cleaned reports :
  spec_survivor ctx qa = None ->
  spec_report ctx qa = Some r ->
  clean_squad_dataset (dataset_with v as1 t ps1 ctx (l1 ++ qa :: l2) ps2 as2)
  = Ok (cleaned, reports) ->
  exists before after,
    reports = before ++ r :: after /\
    clean_squad_dataset (dataset_with v as1 t ps1 ctx (l1 ++ l2) ps2 as2)
    = Ok (cleaned, before ++ after).
Proof.
  intros S R H. destruct (clean_ok_inv _ _ _ H) as (A & -> & ->).
  rewrite all_have_answers_with in A. rewrite forallb_app in A.
  cbn [forallb] in A.
  exists ((spec_reports as1 ++ flat_map spec_reports_paragraph ps1) ++
          filter_map (spec_report ctx) l1),
         (filter_map (spec_report ctx) l2 ++
          (flat_map spec_reports_paragraph ps2 ++ spec_reports as2)).
  split.
  - rewrite spec_reports_with, filter_map_app. cbn [filter_map]. rewrite R.
    now rewrite <- !app_assoc.
  - rewrite clean_squad_dataset_spec, all_have_answers_with, forallb_app.
    replace (forallb article_has_answers as1 && _)%bool with true.
    + f_equal. f_equal.
      * f_equal. apply spec_clean_with.
        rewrite !filter_map_app. cbn [filter_map]. now rewrite S.
      * rewrite spec_reports_with, filter_map_app. now rewrite <- !app_assoc.
    + destruct (forallb article_has_answers as1),
               (forallb paragraph_has_answers ps1), (forallb has_answer l1),
               (has_answer qa), (forallb has_answer l2),
               (forallb paragraph_has_answers ps2),
               (forallb article_has_answers as2);
        cbn in A |- *; congruence.
Qed.

(** ** Rejected pairs *)

(** C2: [find_answer_span] returns [None] exactly when the answer text does
    not occur in the context; a pair that passes the script filter and whose
    first answer text does not occur in the context of its paragraph appends
    one report, with the id, the question, the context, the answer object as
    it was read and the message 'Answer text not found in context', and adds
    nothing to the cleaned pairs: the run returns the cleaned dataset it
    returns for the input without that pair, and its reports are those of
    that input with the report of the pair inserted. *)
Theorem not_found_is_reported :
  (forall c a : pystr, find_answer_span c a = None <-> ~ occurs c a) /\
  (forall (ctx : pystr) (qa : QA) (answer : Answer) (rest : list Answer),
     answers qa = answer :: rest ->
     contains_english (question qa) = false ->
     contains_english (text answer) = false ->
     ~ occurs ctx (text answer) ->
     let r := {| err_id := id qa;
                 err_question := question qa;
                 err_context := ctx;
                 err_answer := answer;
                 error := Some (lit "Answer text not found in context") |} in
     (forall cleaned_qas st,
        qa_body ctx cleaned_qas qa st = Ok (cleaned_qas, st ++ [r])) /\
     (forall v as1 t ps1 l1 l2 ps2 as2 cleaned reports,
        clean_squad_dataset
          (dataset_with v as1 t ps1 ctx (l1 ++ qa :: l2) ps2 as2)
        = Ok (cleaned, reports) ->
        exists before after,
          reports = before ++ r :: after /\
          clean_squad_dataset (dataset_with v as1 t ps1 ctx (l1 ++ l2) ps2 as2)
          = Ok (cleaned, before ++ after))).
Proof.
  split; [exact find_answer_span_none | ].
  intros ctx qa answer rest Ha Hq Ht Hn r.
  apply find_answer_span_none in Hn.
  assert (S : spec_survivor ctx qa = None).
  { unfold spec_survivor, rejected_by_filter. now rewrite Ha, Hq, Ht, Hn. }
  assert (R : spec_report ctx qa = Some r).
  { unfold spec_report, rejected_by_filter. now rewrite Ha, Hq, Ht, Hn. }
  split.
  - intros cleaned_qas st. rewrite qa_body_spec. unfold has_answer.
    cbn [filter_map]. rewrite Ha, S, R. cbn [truthy]. now rewrite app_nil_r.
  - intros v as1 t ps1 l1 l2 ps2 as2 cleaned reports.
    now apply rejected_pair_removed.
Qed.

Lemma not_found_witness :
  let r := report sinhala_context sample_missing missing_answer
                  "Answer text not found in context" in
  qa_body sinhala_context [sample_cleaned_qa] sample_missing []
  = Ok ([sample_cleaned_qa], [r]) /\
  exists before after,
    sample_reports = before ++ r :: after /\
    clean_squad_dataset
      (dataset_with None
         [{| title := lit "t0"; paragraphs := [sample_failing_paragraph] |}]
         (lit "t1") [sample_failing_paragraph] sinhala_context
         ([sample_english; sample_found] ++ []) [] [])
    = Ok (sample_cleaned, before ++ after).
Proof.
  assert (N : ~ occurs sinhala_context (text missing_answer))
    by (apply find_answer_span_none; reflexivity).
  destruct (proj2 not_found_is_reported sinhala_context sample_missing
              missing_answer [] eq_refl eq_refl eq_refl N) as [B D].
  split.
  - exact (B [sample_cleaned_qa] []).
  - exact (D None
             [{| title := lit "t0"; paragraphs := [sample_failing_paragraph] |}]
             (lit "t1") [sample_failing_paragraph]
             [sample_english; sample_found] [] [] []
             sample_cleaned sample_reports eq_refl).
Defined.

(** C6: a pair whose question or whose first answer text has a Latin letter
    appends one report with the message 'Contains English characters' and
    adds nothing to the cleaned pairs, whether or not its answer text occurs
    in the context: the run returns the cleaned dataset it returns for the
    input without that pair, and its reports are those of that input with the
    report of the pair inserted. *)
Theorem english_is_rejected_before_validation :
  forall (ctx : pystr) (qa : QA) (answer : Answer) (rest : list Answer),
    answers qa = answer :: rest ->
    contains_english (question qa) = true \/
    contains_english (text answer) = true ->
    let r := {| err_id := id qa;
                err_question := question qa;
                err_context := ctx;
                err_answer := answer;
                error := Some (lit "Contains English characters") |} in
    (forall cleaned_qas st,
       qa_body ctx cleaned_qas qa st = Ok (cleaned_qas, st ++ [r])) /\
    (forall v as1 t ps1 l1 l2 ps2 as2 cleaned reports,
       clean_squad_dataset
         (dataset_with v as1 t ps1 ctx (l1 ++ qa :: l2) ps2 as2)
       = Ok (cleaned, reports) ->
       exists before after,
         reports = before ++ r :: after /\
         clean_squad_dataset (dataset_with v as1 t ps1 ctx (l1 ++ l2) ps2 as2)
         = Ok (cleaned, before ++ after)).
Proof.
  intros ctx qa answer rest Ha He r.
  assert (F : rejected_by_filter qa answer = true).
  { unfold rejected_by_filter. apply orb_true_iff. exact He. }
  assert (S : spec_survivor ctx qa = None).
  { unfold spec_survivor. now rewrite Ha, F. }
  assert (R : spec_report ctx qa = Some r).
  { unfold spec_report. now rewrite Ha, F. }
  split.
  - intros cleaned_qas st. rewrite qa_body_spec. unfold has_answer.
    cbn [filter_map]. rewrite Ha, S, R. cbn [truthy]. now rewrite app_nil_r.
  - intros v as1 t ps1 l1 l2 ps2 as2 cleaned reports.
    now apply rejected_pair_removed.
Qed.

Lemma english_is_rejected_witness :
  let r := report sinhala_context sample_english found_answer
                  "Contains English characters" in
  find_answer_span sinhala_context (text found_answer) = Some (6, 10) /\
  qa_body sinhala_context [] sample_english [] = Ok ([], [r]) /\
  exists before after,
    sample_reports = before ++ r :: after /\
    clean_squad_dataset
      (dataset_with None
         [{| title := lit "t0"; paragraphs := [sample_failing_paragraph] |}]
         (lit "t1") [sample_failing_paragraph] sinhala_context
         ([] ++ [sample_found; sample_missing]) [] [])
    = Ok (sample_cleaned, before ++ after).
Proof.
  destruct (english_is_rejected_before_validation sinhala_context
              sample_english found_answer [] eq_refl (or_introl eq_refl))
    as [B D].
  split; [reflexivity | split].
  - exact (B [] []).
  - exact (D None
             [{| title := lit "t0"; paragraphs := [sample_failing_paragraph] |}]
             (lit "t1") [sample_failing_paragraph]
             [] [sample_found; sample_missing] [] []
             sample_cleaned sample_reports eq_refl).
Defined.

(** ** The empty answer *)

(** C3, as the specification states it, fails: the empty answer text is
    located at offset 0 and its pair enters the cleaned dataset. *)
Lemma empty_answer_is_located :
  find_answer_span sinhala_context [] = Some (0, 0) /\
  find_answer_span sinhala_context [] <> None /\
  clean_squad_dataset empty_answer_dataset = Ok (empty_answer_cleaned, []).
Proof.
  split; [reflexivity | split; [discriminate | reflexivity]].
Qed.

(** A pair that survives stands, corrected, in the cleaned dataset, in a
    paragraph with its context of an article with its title, between the
    survivors of the pairs before it and those of the pairs after it; the
    reports of the run are those of the input without the pair. *)
Lemma surviving_pair_kept v as1 t ps1 ctx l1 qa l2 ps2 as2 c cleaned reports :
  spec_survivor ctx qa = Some c ->
  spec_report ctx qa = None ->
  clean_squad_dataset (dataset_with v as1 t ps1 ctx (l1 ++ qa :: l2) ps2 as2)
  = Ok (cleaned, reports) ->
  (exists a p,
     In a (data cleaned) /\ title a = t /\
     In p (paragraphs a) /\ context p = ctx /\
     qas p = filter_map (spec_survivor ctx) l1 ++
             c :: filter_map (spec_survivor ctx) l2) /\
  (exists cleaned',
     clean_squad_dataset (dataset_with v as1 t ps1 ctx (l1 ++ l2) ps2 as2)
     = Ok (cleaned', reports)).
Proof.
  intros Hs Hr H. destruct (clean_ok_inv _ _ _ H) as (A & -> & ->).
  rewrite all_have_answers_with in A. rewrite forallb_app in A.
  cbn [forallb] in A. split.
  - set (p := {| context := ctx;
                 qas := filter_map (spec_survivor ctx) l1 ++
                        c :: filter_map (spec_survivor ctx) l2 |}).
    assert (Ep : spec_clean_paragraph
                   {| context := ctx; qas := l1 ++ qa :: l2 |} = p).
    { unfold spec_clean_paragraph, p. cbn [context qas].
      rewrite filter_map_app. cbn [filter_map]. now rewrite Hs. }
    assert (Ip : In p (spec_clean_paragraphs
                         (ps1 ++ {| context := ctx; qas := l1 ++ qa :: l2 |}
                              :: ps2))).
    { unfold spec_clean_paragraphs. apply filter_In. split.
      - apply in_map_iff. eexists. split; [exact Ep | ].
        apply in_or_app. right. now left.
      - unfold p. cbn [qas]. now destruct (filter_map (spec_survivor ctx) l1). }
    exists (spec_clean_article
              {| title := t;
                 paragraphs := ps1 ++ {| context := ctx;
                                         qas := l1 ++ qa :: l2 |} :: ps2 |}),
           p.
    cbn [data spec_clean_article title paragraphs].
    split; [ | split; [reflexivity | split; [exact Ip | split; reflexivity]]].
    unfold spec_clean_articles, dataset_with. cbn [data]. apply filter_In. split.
    + apply in_map_iff. eexists. split; [reflexivity | ].
      apply in_or_app. right. now left.
    + cbn [spec_clean_article paragraphs]. apply truthy_true.
      intros E. rewrite E in Ip. destruct Ip.
  - rewrite clean_squad_dataset_spec, all_have_answers_with, forallb_app.
    replace (forallb article_has_answers as1 && _)%bool with true.
    + eexists. f_equal. f_equal.
      rewrite !spec_reports_with, !filter_map_app. cbn [filter_map].
      now rewrite Hr.
    + destruct (forallb article_has_answers as1),
               (forallb paragraph_has_answers ps1), (forallb has_answer l1),
               (has_answer qa), (forallb has_answer l2),
               (forallb paragraph_has_answers ps2),
               (forallb article_has_answers as2);
        cbn in A |- *; congruence.
Qed.

(** C3, amended: for every context, [find_answer_span] locates the empty
    answer text at [(0, 0)]; a pair whose first answer text is empty and whose
    question has no Latin letter is appended to the cleaned pairs with
    [answer_start] 0, and no report is made for it; in a run that returns,
    such a pair stands in the cleaned dataset, with [answer_start] 0, in a
    paragraph with its context of an article with its title, and the reports
    of the run are those of the run on the input without the pair. *)
Theorem empty_answer_matches_at_zero :
  (forall c : pystr, find_answer_span c [] = Some (0, 0)) /\
  (forall (ctx : pystr) (qa : QA) (answer : Answer) (rest : list Answer)
          (cleaned_qas : list QA) (st : list ErrorReport),
     answers qa = answer :: rest ->
     text answer = [] ->
     contains_english (question qa) = false ->
     qa_body ctx cleaned_qas qa st =
     Ok (cleaned_qas ++
         [{| id := id qa; question := question qa;
             answers := [{| text := []; answer_start := Some 0 |}] |}],
         st)) /\
  (forall (ctx : pystr) (qa : QA) (answer : Answer) (rest : list Answer)
          v as1 t ps1 l1 l2 ps2 as2 cleaned reports,
     answers qa = answer :: rest ->
     text answer = [] ->
     contains_english (question qa) = false ->
     clean_squad_dataset
       (dataset_with v as1 t ps1 ctx (l1 ++ qa :: l2) ps2 as2)
     = Ok (cleaned, reports) ->
     (exists a p before after,
        In a (data cleaned) /\ title a = t /\
        In p (paragraphs a) /\ context p = ctx /\
        qas p = before ++
                {| id := id qa; question := question qa;
                   answers := [{| text := []; answer_start := Some 0 |}] |}
                :: after) /\
     (exists cleaned',
        clean_squad_dataset (dataset_with v as1 t ps1 ctx (l1 ++ l2) ps2 as2)
        = Ok (cleaned', reports))).
Proof.
  assert (E : forall c : pystr, find_answer_span c [] = Some (0, 0)).
  { intros c. unfold find_answer_span, find. now destruct c. }
  split; [exact E | ]. split.
  - intros ctx qa answer rest cleaned_qas st Ha Ht Hq.
    rewrite qa_body_spec. unfold has_answer, spec_survivor, spec_report,
      rejected_by_filter. cbn [filter_map].
    rewrite Ha, Hq, Ht, E. cbn. now rewrite app_nil_r.
  - intros ctx qa answer rest v as1 t ps1 l1 l2 ps2 as2 cleaned reports
           Ha Ht Hq H.
    assert (Hs : spec_survivor ctx qa =
                 Some {| id := id qa; question := question qa;
                         answers := [{| text := [];
                                        answer_start := Some 0 |}] |}).
    { unfold spec_survivor, rejected_by_filter. now rewrite Ha, Hq, Ht, E. }
    assert (Hr : spec_report ctx qa = None).
    { unfold spec_report, rejected_by_filter. now rewrite Ha, Hq, Ht, E. }
    destruct (surviving_pair_kept _ _ _ _ _ _ _ _ _ _ _ _ _ Hs Hr H)
      as [(a & p & Ia & Et & Ip & Ec & Eq) R].
    split; [ | exact R].
    exists a, p, (filter_map (spec_survivor ctx) l1),
           (filter_map (spec_survivor ctx) l2).
    repeat split; assumption.
Qed.

Lemma empty_answer_matches_at_zero_witness :
  qa_body sinhala_context [] sample_empty_answer [] =
  Ok ([mk_qa (lit "q4") sinhala_sri {| text := []; answer_start := Some 0 |}],
      []) /\
  (exists a p before after,
     In a (data empty_answer_cleaned) /\ title a = lit "t" /\
     In p (paragraphs a) /\ context p = sinhala_context /\
     qas p = before ++
             mk_qa (lit "q4") sinhala_sri
                   {| text := []; answer_start := Some 0 |}
             :: after) /\
  (exists cleaned',
     clean_squad_dataset
       (dataset_with (Some (lit "1.1")) [] (lit "t") [] sinhala_context
                     ([] ++ []) [] [])
     = Ok (cleaned', [])).
Proof.
  split.
  - apply (proj1 (proj2 empty_answer_matches_at_zero) sinhala_context
             sample_empty_answer empty_answer [] [] []); reflexivity.
  - apply (proj2 (proj2 empty_answer_matches_at_zero) sinhala_context
             sample_empty_answer empty_answer []
             (Some (lit "1.1")) [] (lit "t") [] [] [] [] []
             empty_answer_cleaned []); reflexivity.
Defined.

(** ** Characters, not bytes *)

(** C4: the offsets of a returned span count the characters that precede the
    occurrence and the characters up to its end; on the five Greek letters
    alpha to epsilon the answer gamma delta is located at [(2, 4)], where a
    search of the UTF-8 bytes of the same strings gives [(4, 8)]. *)
Theorem offsets_count_characters :
  find_answer_span greek_context greek_answer = Some (2, 4) /\
  (forall (c a : pystr) (s e : Z),
     find_answer_span c a = Some (s, e) ->
     exists pre post : pystr,
       c = pre ++ a ++ post /\ s = len pre /\ e = len (pre ++ a)) /\
  find_answer_span (encode_utf8 greek_context) (encode_utf8 greek_answer)
  = Some (4, 8).
Proof.
  split; [reflexivity | split; [ | reflexivity]].
  intros c a s e H.
  destruct (find_answer_span_found _ _ _ _ H) as (_ & -> & (pre & post & E & L) & _).
  exists pre, post. rewrite len_app. repeat split; [exact E | | ]; lia.
Qed.

Lemma offsets_count_characters_witness :
  exists pre post : pystr,
    greek_context = pre ++ greek_answer ++ post /\
    2 = len pre /\ 4 = len (pre ++ greek_answer).
Proof.
  apply (proj1 (proj2 offsets_count_characters) greek_context greek_answer 2 4).
  reflexivity.
Defined.

(** ** The script filter *)

(** C5: [contains_english] is true exactly on the texts that have a character
    in a-z or A-Z; it is true on "hello" and false on the Japanese greeting
    of the specification. *)
Theorem contains_english_iff_latin_letter :
  (forall text : pystr,
     contains_english text = true <-> exists c, In c text /\ latin_letter c) /\
  contains_english (lit "hello") = true /\
  contains_english konnichiwa = false.
Proof.
  split; [ | split; reflexivity].
  intros text. unfold contains_english. rewrite re_search_some.
  split; intros (c & I & H); exists c; (split; [exact I | ]);
    now apply latin_pattern_matches.
Qed.

Lemma contains_english_witness : contains_english (lit "hello") = true.
Proof.
  apply (proj1 contains_english_iff_latin_letter (lit "hello")).
  exists (N_of_ascii "h"). split; [now left | ]. left. cbn. lia.
Defined.

(** ** Pruning, counting and order *)

Lemma cleaned_paragraphs_nonempty (ps : list Paragraph) :
  Forall (fun p => qas p <> []) (spec_clean_paragraphs ps).
Proof.
  apply Forall_forall. intros p I. unfold spec_clean_paragraphs in I.
  apply filter_In in I. now apply truthy_true.
Qed.

Lemma cleaned_articles_nonempty (l : list Article) :
  Forall (fun a => paragraphs a <> [] /\
                   Forall (fun p => qas p <> []) (paragraphs a))
         (spec_clean_articles l).
Proof.
  apply Forall_forall. intros a I. unfold spec_clean_articles in I.
  apply filter_In in I. destruct I as [I T]. split; [now apply truthy_true | ].
  apply in_map_iff in I. destruct I as (a0 & <- & _).
  apply cleaned_paragraphs_nonempty.
Qed.

(** C7: in a run that returns, the articles of the cleaned dataset are, in
    order, the cleaned articles of the input whose cleaned paragraph list is
    not empty, and the paragraphs of a cleaned article are, in order, the
    cleaned paragraphs whose list of surviving pairs is not empty: a cleaned
    paragraph or article is in the output if and only if what survives in it
    is not empty, and the output has no paragraph without pairs and no
    article without paragraphs. *)
Theorem empty_containers_are_pruned
        (d cleaned : Dataset) (reports : list ErrorReport) :
  clean_squad_dataset d = Ok (cleaned, reports) ->
  data cleaned =
    filter (fun a => truthy (paragraphs a))
           (map (fun a =>
                   {| title := title a;
                      paragraphs :=
                        filter (fun p => truthy (qas p))
                               (map (fun p =>
                                       {| context := context p;
                                          qas := filter_map
                                                   (spec_survivor (context p))
                                                   (qas p) |})
                                    (paragraphs a)) |})
                (data d)) /\
  (forall a' : Article,
     In a' (data cleaned) <->
     exists a, In a (data d) /\ a' = spec_clean_article a /\
               paragraphs (spec_clean_article a) <> []) /\
  (forall (a : Article) (p' : Paragraph),
     In p' (paragraphs (spec_clean_article a)) <->
     exists p, In p (paragraphs a) /\ p' = spec_clean_paragraph p /\
               filter_map (spec_survivor (context p)) (qas p) <> []) /\
  Forall (fun a => paragraphs a <> [] /\
                   Forall (fun p => qas p <> []) (paragraphs a))
         (data cleaned).
Proof.
  intros H. destruct (clean_ok_inv _ _ _ H) as (_ & -> & _). cbn [data].
  split; [reflexivity | ]. split; [ | split].
  - intros a'. unfold spec_clean_articles. rewrite filter_In, in_map_iff.
    rewrite truthy_true. split.
    + intros [(a & <- & I) N]. exists a. repeat split; assumption.
    + intros (a & I & -> & N). split; [now exists a | exact N].
  - intros a p'. cbn [spec_clean_article paragraphs].
    unfold spec_clean_paragraphs. rewrite filter_In, in_map_iff.
    rewrite truthy_true. split.
    + intros [(p & <- & I) N]. exists p. repeat split; assumption.
    + intros (p & I & -> & N). split; [now exists p | exact N].
  - apply cleaned_articles_nonempty.
Qed.

Lemma empty_containers_are_pruned_witness :
  data sample_cleaned = [sample_cleaned_article] /\
  Forall (fun a => paragraphs a <> [] /\
                   Forall (fun p => qas p <> []) (paragraphs a))
         (data sample_cleaned).
Proof.
  destruct (empty_containers_are_pruned sample_dataset sample_cleaned
              sample_reports eq_refl) as (E & _ & _ & F).
  split; [reflexivity | exact F].
Defined.

Lemma sum_qas_app (ps ps' : list Paragraph) :
  sum_qas (ps ++ ps') = sum_qas ps + sum_qas ps'.
Proof.
  unfold sum_qas. induction ps as [|p ps IH]; [reflexivity | ].
  cbn [app map fold_right]. rewrite IH. lia.
Qed.

Lemma total_qas_cons (a : Article) (l : list Article) :
  total_qas (a :: l) = sum_qas (paragraphs a) + total_qas l.
Proof. unfold total_qas. cbn [flat_map]. apply sum_qas_app. Qed.

Lemma qas_counted (ctx : pystr) (l : list QA) :
  forallb has_answer l = true ->
  len (filter_map (spec_survivor ctx) l) + len (filter_map (spec_report ctx) l)
  = len l.
Proof.
  induction l as [|q l IH]; [reflexivity | ].
  cbn [forallb]. rewrite andb_true_iff. intros [Hq Hl].
  pose proof (survivor_or_report ctx q Hq) as One. specialize (IH Hl).
  change (q :: l) with ([q] ++ l). rewrite !filter_map_app, !len_app.
  change (len [q]) with 1. lia.
Qed.

Lemma paragraphs_counted (ps : list Paragraph) :
  forallb paragraph_has_answers ps = true ->
  sum_qas (spec_clean_paragraphs ps) + len (flat_map spec_reports_paragraph ps)
  = sum_qas ps.
Proof.
  induction ps as [|p ps IH]; [reflexivity | ].
  cbn [forallb]. rewrite andb_true_iff. intros [Hp Hps]. specialize (IH Hps).
  pose proof (qas_counted (context p) (qas p) Hp) as Q.
  cbn [flat_map]. rewrite len_app. unfold spec_reports_paragraph at 1.
  unfold spec_clean_paragraphs in *. cbn [map filter].
  change (sum_qas (p :: ps)) with (len (qas p) + sum_qas ps).
  destruct (qas (spec_clean_paragraph p)) as [|c cs] eqn:E; cbn [truthy].
  - cbn [spec_clean_paragraph qas] in E. rewrite E in Q.
    change (len (@nil QA)) with 0 in Q. lia.
  - change (sum_qas (spec_clean_paragraph p :: ?l))
      with (len (qas (spec_clean_paragraph p)) + sum_qas l).
    cbn [spec_clean_paragraph qas]. lia.
Qed.

Lemma articles_counted (l : list Article) :
  forallb article_has_answers l = true ->
  total_qas (spec_clean_articles l) + len (spec_reports l) = total_qas l.
Proof.
  induction l as [|a l IH]; [reflexivity | ].
  cbn [forallb]. rewrite andb_true_iff. intros [Ha Hl]. specialize (IH Hl).
  pose proof (paragraphs_counted (paragraphs a) Ha) as P.
  unfold spec_reports in *. cbn [flat_map]. rewrite len_app.
  unfold spec_reports_article at 1. rewrite total_qas_cons.
  unfold spec_clean_articles in *. cbn [map filter].
  destruct (paragraphs (spec_clean_article a)) as [|c cs] eqn:E; cbn [truthy].
  - cbn [spec_clean_article paragraphs] in E. rewrite E in P.
    change (sum_qas []) with 0 in P. lia.
  - rewrite total_qas_cons. cbn [spec_clean_article paragraphs]. lia.
Qed.

(** One iteration on a pair that has an answer appends one element to exactly
    one of the two lists. *)
Lemma qa_body_one_output (ctx : pystr) (acc : list QA) (qa : QA)
      (st : list ErrorReport) :
  answers qa <> [] ->
  (exists c, qa_body ctx acc qa st = Ok (acc ++ [c], st)) \/
  (exists r, qa_body ctx acc qa st = Ok (acc, st ++ [r])).
Proof.
  intros H. rewrite qa_body_spec.
  unfold has_answer, spec_survivor, spec_report. cbn [filter_map].
  destruct (answers qa) as [|answer rest]; [contradiction | ]. cbn [truthy].
  destruct (rejected_by_filter qa answer).
  - right. eexists. now rewrite app_nil_r.
  - destruct (find_answer_span ctx (text answer)) as [[s e]|].
    + left. eexists. now rewrite app_nil_r.
    + right. eexists. now rewrite app_nil_r.
Qed.

(** C8: one iteration of the loop over the pairs, on a pair that has an
    answer, appends either one cleaned pair and no report or one report and
    no cleaned pair; on a dataset whose pairs all have at least one answer the
    run returns, and the number of pairs of the cleaned dataset plus the
    number of reports is the number of pairs of the input. *)
Theorem every_pair_is_counted_once :
  (forall (ctx : pystr) (cleaned_qas : list QA) (qa : QA)
          (st : list ErrorReport),
     answers qa <> [] ->
     (exists c, qa_body ctx cleaned_qas qa st = Ok (cleaned_qas ++ [c], st)) \/
     (exists r, qa_body ctx cleaned_qas qa st = Ok (cleaned_qas, st ++ [r]))) /\
  (forall d : Dataset,
     (forall a p q,
        In a (data d) -> In p (paragraphs a) -> In q (qas p) ->
        answers q <> []) ->
     exists cleaned reports,
       clean_squad_dataset d = Ok (cleaned, reports) /\
       total_qas (data cleaned) + len reports = total_qas (data d)).
Proof.
  split; [exact qa_body_one_output | ].
  intros d H. apply all_have_answers_iff in H.
  rewrite clean_squad_dataset_spec, H.
  eexists _, _. split; [reflexivity | ]. cbn [data].
  now apply articles_counted.
Qed.

Lemma every_pair_is_counted_once_witness :
  exists cleaned reports,
    clean_squad_dataset sample_dataset = Ok (cleaned, reports) /\
    total_qas (data cleaned) + len reports = total_qas (data sample_dataset).
Proof.
  apply (proj2 every_pair_is_counted_once sample_dataset).
  intros a p q Ia Ip Iq.
  simpl in Ia. destruct Ia as [<- | [<- | []]]; simpl in Ip.
  - destruct Ip as [<- | []]. simpl in Iq. destruct Iq as [<- | []]. discriminate.
  - destruct Ip as [<- | [<- | []]]; simpl in Iq.
    + destruct Iq as [<- | []]. discriminate.
    + destruct Iq as [<- | [<- | [<- | []]]]; discriminate.
Defined.

(** C9: in a run that returns, the articles of the cleaned dataset are a
    subsequence of the articles of the input, each with the title of the
    article it comes from; its paragraphs are a subsequence of the paragraphs
    of that article, each with the same context; and the pairs of a cleaned
    paragraph are a subsequence of the pairs of the paragraph it comes from,
    each with the same id, the same question and the text of the first
    answer. *)
Theorem cleaning_preserves_order
        (d cleaned : Dataset) (reports : list ErrorReport) :
  clean_squad_dataset d = Ok (cleaned, reports) ->
  embeds article_from (data cleaned) (data d).
Proof.
  intros H. destruct (clean_ok_inv _ _ _ H) as (_ & -> & _). cbn [data].
  apply embeds_filter_image. intros a _. split; [reflexivity | ].
  apply embeds_filter_image. intros p _. split; [reflexivity | ].
  apply embeds_filter_map. intros q c _ S.
  destruct (spec_survivor_some _ _ _ S) as (answer & rest & s & Ha & _ & _ & ->).
  repeat split. now exists answer, rest.
Qed.

Lemma cleaning_preserves_order_witness :
  embeds article_from (data sample_cleaned) (data sample_dataset).
Proof.
  apply (cleaning_preserves_order sample_dataset sample_cleaned sample_reports).
  reflexivity.
Defined.

(** ** More on the span locator *)

Lemma occurs_at_length (c a : pystr) (j : Z) :
  occurs_at c a j -> j + len a <= len c.
Proof.
  intros (pre & post & -> & <-). rewrite !len_app.
  pose proof (len_nonneg post). lia.
Qed.

(** An answer longer than the context is never located, and a context is
    located in itself at [(0, len context)]. *)
Theorem find_answer_span_bounds :
  (forall c a : pystr, len c < len a -> find_answer_span c a = None) /\
  (forall c : pystr, find_answer_span c c = Some (0, len c)).
Proof.
  split.
  - intros c a L. apply find_answer_span_none. intros [j O].
    pose proof (occurs_at_length _ _ _ O). pose proof (occurs_at_nonneg _ _ _ O).
    lia.
  - intros c.
    assert (O : occurs_at c c 0) by (exists [], []; now rewrite app_nil_r).
    rewrite (find_answer_span_occurs c c) by (now exists 0).
    destruct (find_spec c c) as [[_ N] | (P & _ & L)].
    + exfalso. apply N. now exists 0.
    + specialize (L 0 O). replace (find c c) with 0 by lia. reflexivity.
Qed.

Lemma find_answer_span_bounds_witness :
  find_answer_span sinhala_lanka sinhala_context = None.
Proof.
  apply (proj1 find_answer_span_bounds sinhala_lanka sinhala_context).
  reflexivity.
Defined.

Lemma app_eq_split {A : Type} (l1 l2 k1 k2 : list A) :
  l1 ++ l2 = k1 ++ k2 -> (List.length k1 <= List.length l1)%nat ->
  exists m, l1 = k1 ++ m /\ k2 = m ++ l2.
Proof.
  revert k1. induction l1 as [|x l1 IH]; intros k1 E L.
  - destruct k1; [ | cbn in L; lia]. exists []. split; [reflexivity | ].
    symmetry. exact E.
  - destruct k1 as [|y k1].
    + exists (x :: l1). split; [reflexivity | ]. symmetry. exact E.
    + cbn in E. injection E as -> E. cbn in L.
      destruct (IH k1 E ltac:(lia)) as (m & -> & ->).
      now exists m.
Qed.

(** Text added after the context does not move a located span. *)
Theorem find_answer_span_stable_under_append (c a extra : pystr) (s e : Z) :
  find_answer_span c a = Some (s, e) ->
  find_answer_span (c ++ extra) a = Some (s, e).
Proof.
  intros H. destruct (find_answer_span_found _ _ _ _ H) as (_ & -> & O & L).
  assert (O' : occurs_at (c ++ extra) a s).
  { destruct O as (pre & post & -> & Hs). exists pre, (post ++ extra).
    split; [now rewrite <- !app_assoc | exact Hs]. }
  rewrite (find_answer_span_occurs (c ++ extra) a) by (now exists s).
  destruct (find_spec (c ++ extra) a) as [[_ N] | (P & Of & Lf)].
  { exfalso. apply N. now exists s. }
  pose proof (Lf s O') as Le.
  assert (Ge : s <= find (c ++ extra) a).
  { apply L. destruct Of as (pre & post & E & Hj).
    pose proof (occurs_at_length _ _ _ O) as B.
    destruct (app_eq_split c extra (pre ++ a) post) as (m & Ec & _).
    - now rewrite <- app_assoc.
    - apply Nat2Z.inj_le. fold (len (pre ++ a)). fold (len c).
      rewrite len_app. lia.
    - exists pre, m. split; [now rewrite app_assoc | exact Hj]. }
  replace (find (c ++ extra) a) with s by lia. reflexivity.
Qed.

Lemma find_answer_span_stable_witness :
  find_answer_span (sinhala_context ++ konnichiwa ++ sinhala_lanka)
                   sinhala_lanka = Some (6, 10).
Proof.
  apply (find_answer_span_stable_under_append sinhala_context sinhala_lanka
           (konnichiwa ++ sinhala_lanka) 6 10).
  reflexivity.
Defined.

(** ** More on the script filter *)

Lemma re_search_any_position (t : pystr) (p q : Z) :
  bool_of_match (re_search latin_pattern p t) =
  bool_of_match (re_search latin_pattern q t).
Proof.
  revert p q. induction t as [|x t IH]; intros p q; cbn [re_search].
  - reflexivity.
  - destruct (class_matches latin_pattern x); [reflexivity | apply IH].
Qed.

(** [contains_english] of a concatenation is the disjunction of
    [contains_english] of the parts; in particular the empty text has no
    English character. *)
Theorem contains_english_app :
  contains_english [] = false /\
  forall a b : pystr,
    contains_english (a ++ b) = contains_english a || contains_english b.
Proof.
  split; [reflexivity | ]. intros a b. unfold contains_english.
  generalize 0 at 1 2. induction a as [|c a IH]; intros pos.
  - cbn [app re_search bool_of_match orb]. apply re_search_any_position.
  - cbn [app re_search]. destruct (class_matches latin_pattern c).
    + reflexivity.
    + apply IH.
Qed.

(** ** [verify_and_correct_example] *)

(** The verification is valid exactly when the answer text occurs in the
    context.  When it is, the corrected offsets are those of the first
    occurrence and no error is set; when it is not, the error message is set
    and the corrected offsets are absent.  In both cases the text is that of
    the answer and [original_start] is the recorded offset, [-1] when the
    answer has none. *)
Theorem verify_and_correct_example_cases (ctx : pystr) (answer : Answer) :
  let v := verify_and_correct_example ctx answer in
  v_text v = text answer /\
  original_start v = match answer_start answer with
                     | Some n => n
                     | None => -1
                     end /\
  (is_valid v = true <-> occurs ctx (text answer)) /\
  (is_valid v = true ->
   v_error v = None /\
   corrected_start v = Some (find ctx (text answer)) /\
   corrected_end v = Some (find ctx (text answer) + len (text answer))) /\
  (is_valid v = false ->
   v_error v = Some (lit "Answer text not found in context") /\
   corrected_start v = None /\ corrected_end v = None).
Proof.
  unfold verify_and_correct_example. cbv zeta.
  destruct (find_answer_span ctx (text answer)) as [[s e]|] eqn:E.
  - destruct (find_answer_span_found _ _ _ _ E) as (-> & -> & O & _).
    cbn. repeat split; try discriminate; try reflexivity.
    intros _. now exists (find ctx (text answer)).
  - apply find_answer_span_none in E.
    cbn. repeat split; try discriminate; try reflexivity.
    intros O. contradiction.
Qed.

Lemma verify_and_correct_example_witness :
  v_error (verify_and_correct_example sinhala_context found_answer) = None /\
  corrected_start (verify_and_correct_example sinhala_context found_answer)
  = Some 6 /\
  corrected_end (verify_and_correct_example sinhala_context found_answer)
  = Some 10.
Proof.
  destruct (verify_and_correct_example_cases sinhala_context found_answer)
    as (_ & _ & _ & V & _).
  exact (V eq_refl).
Defined.

(** ** What makes the run raise *)

Lemma forallb_false {A : Type} (f : A -> bool) (l : list A) :
  forallb f l = false <-> exists x, In x l /\ f x = false.
Proof.
  induction l as [|x l IH]; cbn [forallb In].
  - split; [discriminate | intros (x & [] & _)].
  - rewrite andb_false_iff, IH. split.
    + intros [H | (y & I & H)]; [exists x | exists y]; auto.
    + intros (y & [-> | I] & H); [now left | right; now exists y].
Qed.

(** The run raises if and only if some pair of the input has an empty list of
    answers; the exception is then [IndexError], and no cleaned dataset and
    no report is returned.  It never raises [KeyError]: the corrected start
    is read only from a valid verification. *)
Theorem clean_squad_dataset_raises (d : Dataset) :
  ((exists e, clean_squad_dataset d = Raise e) <->
   exists a p q,
     In a (data d) /\ In p (paragraphs a) /\ In q (qas p) /\ answers q = []) /\
  clean_squad_dataset d <> Raise KeyError.
Proof.
  rewrite clean_squad_dataset_spec. split.
  - destruct (all_have_answers d) eqn:A.
    + split; [intros [e H]; discriminate | ].
      intros (a & p & q & Ia & Ip & Iq & E).
      pose proof (proj1 (all_have_answers_iff d) A a p q Ia Ip Iq). contradiction.
    + split; [intros _ | intros _; now exists IndexError].
      unfold all_have_answers in A. apply forallb_false in A.
      destruct A as (a & Ia & A). apply forallb_false in A.
      destruct A as (p & Ip & A). apply forallb_false in A.
      destruct A as (q & Iq & A). exists a, p, q.
      unfold has_answer in A. destruct (answers q); [auto | discriminate].
  - destruct (all_have_answers d); discriminate.
Qed.

Lemma clean_squad_dataset_raises_witness :
  exists e, clean_squad_dataset no_answer_dataset = Raise e.
Proof.
  apply (proj1 (clean_squad_dataset_raises no_answer_dataset)).
  eexists _, _, _. repeat split; [left; reflexivity | left; reflexivity | |].
  - right. left. reflexivity.
  - reflexivity.
Defined.

(** ** Cleaning what is already clean *)

Lemma filter_map_fixed {A : Type} (f : A -> option A) (l : list A) :
  (forall x, In x l -> f x = Some x) -> filter_map f l = l.
Proof.
  induction l as [|x l IH]; intros H; [reflexivity | ].
  cbn [filter_map]. rewrite (H x) by now left.
  f_equal. apply IH. intros y I. apply H. now right.
Qed.

Lemma filter_map_none {A B : Type} (f : A -> option B) (l : list A) :
  (forall x, In x l -> f x = None) -> filter_map f l = [].
Proof.
  induction l as [|x l IH]; intros H; [reflexivity | ].
  cbn [filter_map]. rewrite (H x) by now left.
  apply IH. intros y I. apply H. now right.
Qed.

Lemma flat_map_nil {A B : Type} (g : A -> list B) (l : list A) :
  (forall x, In x l -> g x = []) -> flat_map g l = [].
Proof.
  induction l as [|x l IH]; intros H; [reflexivity | ].
  cbn [flat_map]. rewrite (H x) by now left.
  apply IH. intros y I. apply H. now right.
Qed.

Lemma filter_map_idem {A : Type} (f : A -> A) (p : A -> bool) (l : list A) :
  (forall x, f (f x) = f x) ->
  filter p (map f (filter p (map f l))) = filter p (map f l).
Proof.
  intros E. induction l as [|x l IH]; [reflexivity | ].
  cbn [map filter]. destruct (p (f x)) eqn:P; [ | exact IH].
  cbn [map filter]. rewrite E, P. now f_equal.
Qed.

(** A survivor survives again, unchanged, and is not reported. *)
Lemma survivor_fixed (ctx : pystr) (q0 q : QA) :
  spec_survivor ctx q0 = Some q ->
  spec_survivor ctx q = Some q /\ spec_report ctx q = None /\
  has_answer q = true.
Proof.
  intros S.
  destruct (spec_survivor_some _ _ _ S) as (answer & rest & s & _ & F & E & ->).
  unfold spec_survivor, spec_report, has_answer, rejected_by_filter in *.
  cbn [answers question text id truthy]. rewrite F, E. repeat split.
Qed.

Lemma clean_paragraph_fixed (p : Paragraph) :
  spec_clean_paragraph (spec_clean_paragraph p) = spec_clean_paragraph p /\
  spec_reports_paragraph (spec_clean_paragraph p) = [] /\
  paragraph_has_answers (spec_clean_paragraph p) = true.
Proof.
  unfold spec_clean_paragraph at 1 3 4, spec_reports_paragraph,
    paragraph_has_answers.
  cbn [spec_clean_paragraph context qas].
  assert (H : forall q, In q (filter_map (spec_survivor (context p)) (qas p)) ->
                        spec_survivor (context p) q = Some q /\
                        spec_report (context p) q = None /\
                        has_answer q = true).
  { intros q I. apply in_filter_map in I. destruct I as (q0 & _ & S).
    exact (survivor_fixed _ _ _ S). }
  split; [ | split].
  - unfold spec_clean_paragraph. f_equal. apply filter_map_fixed.
    intros q I. apply (H q I).
  - apply filter_map_none. intros q I. apply (H q I).
  - apply forallb_forall. intros q I. apply (H q I).
Qed.

Lemma clean_paragraphs_fixed (ps : list Paragraph) :
  spec_clean_paragraphs (spec_clean_paragraphs ps) = spec_clean_paragraphs ps /\
  flat_map spec_reports_paragraph (spec_clean_paragraphs ps) = [] /\
  forallb paragraph_has_answers (spec_clean_paragraphs ps) = true.
Proof.
  assert (H : forall p, In p (spec_clean_paragraphs ps) ->
                        exists p0, p = spec_clean_paragraph p0).
  { intros p I. unfold spec_clean_paragraphs in I. apply filter_In in I.
    destruct I as [I _]. apply in_map_iff in I. destruct I as (p0 & <- & _).
    now exists p0. }
  split; [ | split].
  - unfold spec_clean_paragraphs.
    apply (filter_map_idem spec_clean_paragraph (fun p => truthy (qas p))).
    intros p. apply clean_paragraph_fixed.
  - apply flat_map_nil. intros p I. destruct (H p I) as [p0 ->].
    apply clean_paragraph_fixed.
  - apply forallb_forall. intros p I. destruct (H p I) as [p0 ->].
    apply clean_paragraph_fixed.
Qed.

Lemma clean_article_fixed (a : Article) :
  spec_clean_article (spec_clean_article a) = spec_clean_article a /\
  spec_reports_article (spec_clean_article a) = [] /\
  article_has_answers (spec_clean_article a) = true.
Proof.
  unfold spec_clean_article at 1 3 4, spec_reports_article, article_has_answers.
  cbn [spec_clean_article title paragraphs].
  destruct (clean_paragraphs_fixed (paragraphs a)) as (E & R & H).
  repeat split; [ | exact R | exact H].
  unfold spec_clean_article. now rewrite E.
Qed.

Lemma clean_articles_fixed (l : list Article) :
  spec_clean_articles (spec_clean_articles l) = spec_clean_articles l /\
  spec_reports (spec_clean_articles l) = [] /\
  forallb article_has_answers (spec_clean_articles l) = true.
Proof.
  assert (H : forall a, In a (spec_clean_articles l) ->
                        exists a0, a = spec_clean_article a0).
  { intros a I. unfold spec_clean_articles in I. apply filter_In in I.
    destruct I as [I _]. apply in_map_iff in I. destruct I as (a0 & <- & _).
    now exists a0. }
  split; [ | split].
  - unfold spec_clean_articles.
    apply (filter_map_idem spec_clean_article (fun a => truthy (paragraphs a))).
    intros a. apply clean_article_fixed.
  - apply flat_map_nil. intros a I. destruct (H a I) as [a0 ->].
    apply clean_article_fixed.
  - apply forallb_forall. intros a I. destruct (H a I) as [a0 ->].
    apply clean_article_fixed.
Qed.

(** Cleaning is idempotent: run on a cleaned dataset, the script returns it
    unchanged and reports nothing. *)
Theorem cleaning_is_idempotent
        (d cleaned : Dataset) (reports : list ErrorReport) :
  clean_squad_dataset d = Ok (cleaned, reports) ->
  clean_squad_dataset cleaned = Ok (cleaned, []).
Proof.
  intros H. destruct (clean_ok_inv _ _ _ H) as (_ & -> & _).
  rewrite clean_squad_dataset_spec. unfold all_have_answers. cbn [data].
  destruct (clean_articles_fixed (data d)) as (E & R & A).
  rewrite A, E, R. reflexivity.
Qed.

Lemma cleaning_is_idempotent_witness :
  clean_squad_dataset sample_cleaned = Ok (sample_cleaned, []).
Proof.
  apply (cleaning_is_idempotent sample_dataset sample_cleaned sample_reports).
  reflexivity.
Defined.

(** ** Only the first answer is read *)

Section MapPairs.
Variable g : QA -> QA.
Hypothesis g_answer : forall q, has_answer (g q) = has_answer q.
Hypothesis g_survivor : forall ctx q, spec_survivor ctx (g q) = spec_survivor ctx q.
Hypothesis g_report : forall ctx q, spec_report ctx (g q) = spec_report ctx q.

(** A change of the pairs that the three readings of a pair do not see is
    not seen by the run. *)
Lemma clean_map_pairs (d : Dataset) :
  clean_squad_dataset (map_pairs g d) = clean_squad_dataset d.
Proof.
  rewrite !clean_squad_dataset_spec.
  assert (A : all_have_answers (map_pairs g d) = all_have_answers d).
  { unfold all_have_answers, map_pairs. cbn [data].
    apply forallb_map_ext. intros a. unfold article_has_answers. cbn [paragraphs].
    apply forallb_map_ext. intros p. unfold paragraph_has_answers. cbn [qas].
    apply forallb_map_ext. exact g_answer. }
  assert (C : spec_clean_articles (data (map_pairs g d)) =
              spec_clean_articles (data d)).
  { unfold spec_clean_articles, map_pairs. cbn [data]. rewrite map_map. f_equal.
    apply map_ext. intros a. unfold spec_clean_article. cbn [title paragraphs].
    f_equal. unfold spec_clean_paragraphs. rewrite map_map. f_equal.
    apply map_ext. intros p. unfold spec_clean_paragraph. cbn [context qas].
    f_equal. rewrite filter_map_map. apply filter_map_ext. apply g_survivor. }
  assert (R : spec_reports (data (map_pairs g d)) = spec_reports (data d)).
  { unfold spec_reports, map_pairs. cbn [data]. rewrite flat_map_concat_map.
    rewrite map_map. rewrite <- flat_map_concat_map. apply flat_map_ext.
    intros a. unfold spec_reports_article. cbn [paragraphs].
    rewrite flat_map_concat_map, map_map, <- flat_map_concat_map.
    apply flat_map_ext. intros p. unfold spec_reports_paragraph.
    cbn [context qas]. rewrite filter_map_map. apply filter_map_ext.
    apply g_report. }
  rewrite A, C, R. reflexivity.
Qed.
End MapPairs.

(** The answers of a pair after the first one play no part: the run returns
    the same cleaned dataset and the same reports when they are removed from
    every pair, and raises on the same inputs. *)
Theorem only_first_answer_is_read (d : Dataset) :
  clean_squad_dataset (map_pairs first_answer_only d) = clean_squad_dataset d.
Proof.
  apply clean_map_pairs.
  - intros q. unfold has_answer, first_answer_only. cbn [answers].
    now destruct (answers q).
  - intros ctx q. unfold spec_survivor, first_answer_only, rejected_by_filter.
    cbn [answers question id]. now destruct (answers q).
  - intros ctx q. unfold spec_report, first_answer_only, rejected_by_filter, report.
    cbn [answers question id]. now destruct (answers q).
Qed.

(** ** What the outputs hold *)

(** No question and no answer text of the cleaned dataset has a Latin
    letter. *)
Theorem cleaned_dataset_has_no_english
        (d cleaned : Dataset) (reports : list ErrorReport) :
  clean_squad_dataset d = Ok (cleaned, reports) ->
  forall a p q,
    In a (data cleaned) -> In p (paragraphs a) -> In q (qas p) ->
    contains_english (question q) = false /\
    forall answer, In answer (answers q) ->
                   contains_english (text answer) = false.
Proof.
  intros H a p q Ia Ip Iq.
  destruct (clean_ok_inv _ _ _ H) as (_ & -> & _). cbn [data] in Ia.
  destruct (in_cleaned _ _ _ _ Ia Ip Iq) as (a0 & p0 & q0 & _ & _ & _ & _ & _ & S).
  destruct (spec_survivor_some _ _ _ S) as (answer & rest & s & _ & F & _ & ->).
  unfold rejected_by_filter in F. apply orb_false_iff in F. destruct F as [Fq Fa].
  cbn [question answers]. split; [exact Fq | ].
  intros x [<- | []]. exact Fa.
Qed.

Lemma cleaned_dataset_has_no_english_witness :
  contains_english (question sample_cleaned_qa) = false /\
  forall answer, In answer (answers sample_cleaned_qa) ->
                 contains_english (text answer) = false.
Proof.
  apply (cleaned_dataset_has_no_english sample_dataset sample_cleaned
           sample_reports eq_refl sample_cleaned_article
           sample_cleaned_paragraph sample_cleaned_qa);
    simpl; auto.
Defined.

Lemma spec_report_some (ctx : pystr) (qa : QA) (r : ErrorReport) :
  spec_report ctx qa = Some r ->
  report_from r (ctx, qa) /\ report_justified r.
Proof.
  unfold spec_report, report_from, report_justified.
  destruct (answers qa) as [|answer rest] eqn:Ha; [discriminate | ].
  destruct (rejected_by_filter qa answer) eqn:F.
  - intros E. injection E as <-. cbn. repeat split; [now exists rest | ].
    left. split; [reflexivity | ]. now apply orb_true_iff.
  - destruct (find_answer_span ctx (text answer)) as [sp|] eqn:N; [discriminate | ].
    intros E. injection E as <-. cbn. repeat split; [now exists rest | ].
    right. apply orb_false_iff in F. destruct F as [Fq Fa].
    repeat split; [exact Fq | exact Fa | now apply find_answer_span_none].
Qed.

(** Every report of a run is justified by what it carries: either it says
    'Contains English characters' and its question or its answer text has a
    Latin letter, or it says 'Answer text not found in context', neither has
    one, and its answer text does not occur in its context.  The message is
    never absent. *)
Theorem reports_are_justified
        (d cleaned : Dataset) (reports : list ErrorReport) :
  clean_squad_dataset d = Ok (cleaned, reports) ->
  Forall report_justified reports.
Proof.
  intros H. destruct (clean_ok_inv _ _ _ H) as (_ & _ & ->).
  apply Forall_forall. intros r I. unfold spec_reports in I.
  apply in_flat_map in I. destruct I as (a & _ & I).
  apply in_flat_map in I. destruct I as (p & _ & I).
  apply in_filter_map in I. destruct I as (q & _ & S).
  exact (proj2 (spec_report_some _ _ _ S)).
Qed.

Lemma reports_are_justified_witness : Forall report_justified sample_reports.
Proof.
  apply (reports_are_justified sample_dataset sample_cleaned sample_reports).
  reflexivity.
Defined.

Lemma embeds_app {A B : Type} (R : A -> B -> Prop) (l l' : list A)
      (k k' : list B) :
  embeds R l k -> embeds R l' k' -> embeds R (l ++ l') (k ++ k').
Proof.
  intros E E'. induction E; cbn [app].
  - exact E'.
  - now apply embeds_skip.
  - now apply embeds_keep.
Qed.

Lemma embeds_flat_map {A B C : Type} (R : A -> B -> Prop)
      (g : C -> list A) (h : C -> list B) (l : list C) :
  (forall x, embeds R (g x) (h x)) ->
  embeds R (flat_map g l) (flat_map h l).
Proof.
  intros H. induction l as [|x l IH]; cbn [flat_map].
  - constructor.
  - now apply embeds_app.
Qed.

(** The reports of a run stand in the reading order of the pairs they are
    about: they are a subsequence of the pairs of the input, articles first,
    then paragraphs, then pairs, and each carries the id, the question, the
    context and the first answer of its pair. *)
Theorem reports_follow_input_order
        (d cleaned : Dataset) (reports : list ErrorReport) :
  clean_squad_dataset d = Ok (cleaned, reports) ->
  embeds report_from reports (all_pairs (data d)).
Proof.
  intros H. destruct (clean_ok_inv _ _ _ H) as (_ & _ & ->).
  unfold spec_reports, all_pairs. apply embeds_flat_map. intros a.
  unfold spec_reports_article. apply embeds_flat_map. intros p.
  unfold spec_reports_paragraph.
  induction (qas p) as [|q l IH]; cbn [filter_map map].
  - constructor.
  - destruct (spec_report (context p) q) as [r|] eqn:S.
    + apply embeds_keep; [ | exact IH]. exact (proj1 (spec_report_some _ _ _ S)).
    + now apply embeds_skip.
Qed.

Lemma reports_follow_input_order_witness :
  embeds report_from sample_reports (all_pairs (data sample_dataset)).
Proof.
  apply (reports_follow_input_order sample_dataset sample_cleaned sample_reports).
  reflexivity.
Defined.

(** * The translation step *)

(** ** The batches of [batch_translate_texts] *)

Lemma skipn_nil_iff {A : Type} (l : list A) (n : nat) :
  skipn n l = [] <-> (List.length l <= n)%nat.
Proof.
  split.
  - intros E. pose proof (length_skipn n l) as L. rewrite E in L. cbn in L. lia.
  - apply skipn_all2.
Qed.

(** The slices the loop takes are not empty, have at most 128 texts, and put
    end to end they are the texts from the first index on. *)
Lemma range_slices (texts : list pystr) (fuel : nat) (i : Z) :
  0 <= i ->
  (List.length (skipn (Z.to_nat i) texts) <= fuel)%nat ->
  let bs := map (fun j => slice texts j (j + 128))
                (range_from fuel i (len texts) 128) in
  List.concat bs = skipn (Z.to_nat i) texts /\
  Forall (fun b => 1 <= len b <= 128) bs.
Proof.
  revert i. induction fuel as [|fuel IH]; intros i Hi Hf; cbn [range_from].
  - cbn. split; [ | constructor]. symmetry. apply length_zero_iff_nil. lia.
  - destruct (i <? len texts) eqn:E.
    + apply Z.ltb_lt in E. cbn [map List.concat].
      assert (S : slice texts i (i + 128) =
                  firstn 128 (skipn (Z.to_nat i) texts)).
      { unfold slice. now replace (i + 128 - i) with 128 by lia. }
      assert (N : skipn (Z.to_nat (i + 128)) texts =
                  skipn 128 (skipn (Z.to_nat i) texts)).
      { rewrite skipn_skipn. f_equal. lia. }
      pose proof (length_skipn (Z.to_nat i) texts) as L. unfold len in E.
      destruct (IH (i + 128)) as [C F]; [lia | | ].
      { rewrite N, length_skipn. lia. }
      rewrite S. split.
      * rewrite C, N. apply firstn_skipn.
      * constructor; [ | exact F]. unfold len. rewrite length_firstn. lia.
    + apply Z.ltb_ge in E. cbn. split; [ | constructor].
      symmetry. apply skipn_nil_iff. unfold len in E. lia.
Qed.

Lemma batches_partition (texts : list pystr) :
  let bs := map (fun j => slice texts j (j + 128)) (py_range (len texts) 128) in
  List.concat bs = texts /\ Forall (fun b => 1 <= len b <= 128) bs.
Proof.
  unfold py_range. apply (range_slices texts (Z.to_nat (len texts)) 0); [lia | ].
  cbn [Z.to_nat skipn]. unfold len. lia.
Qed.

Section AnyService.
Context {service : Type}.
Variable translate : list pystr -> service -> option (list pystr) * service.

Lemma translate_batches_pointwise (f : pystr -> pystr) (texts : list pystr) :
  (forall b sv, fst (translate b sv) = Some (map f b)) ->
  forall idxs acc sv,
    fst (translate_batches translate idxs texts acc sv) =
    Some (acc ++ map f (List.concat (map (fun j => slice texts j (j + 128)) idxs))).
Proof.
  intros H. induction idxs as [|i idxs IH]; intros acc sv.
  - cbn. now rewrite app_nil_r.
  - cbn [translate_batches map List.concat]. cbv zeta.
    specialize (H (slice texts i (i + 128)) sv).
    destruct (translate (slice texts i (i + 128)) sv) as [[r|] sv']; cbn in H;
      [ | discriminate].
    injection H as ->. rewrite IH, map_app. now rewrite app_assoc.
Qed.

Lemma translate_batches_length (texts : list pystr) :
  (forall b sv r, fst (translate b sv) = Some r -> len r = len b) ->
  forall idxs acc sv r,
    fst (translate_batches translate idxs texts acc sv) = Some r ->
    len r = len acc +
            len (List.concat (map (fun j => slice texts j (j + 128)) idxs)).
Proof.
  intros H. induction idxs as [|i idxs IH]; intros acc sv r.
  - cbn. intros E. injection E as <-. lia.
  - cbn [translate_batches map List.concat]. cbv zeta.
    specialize (H (slice texts i (i + 128)) sv).
    destruct (translate (slice texts i (i + 128)) sv) as [[t|] sv']; cbn in H;
      [ | discriminate].
    intros E. rewrite (IH _ _ _ E), !len_app, (H t eq_refl). lia.
Qed.

Lemma translate_batches_unavailable (texts : list pystr) :
  (forall b sv, fst (translate b sv) = None) ->
  forall idxs acc sv,
    idxs <> [] -> fst (translate_batches translate idxs texts acc sv) = None.
Proof.
  intros H [|i idxs] acc sv N; [contradiction | ].
  cbn [translate_batches]. cbv zeta.
  specialize (H (slice texts i (i + 128)) sv).
  destruct (translate (slice texts i (i + 128)) sv) as [[t|] sv']; cbn in H;
    [discriminate | reflexivity].
Qed.

Lemma batches_pointwise (f : pystr -> pystr)
        (texts : list pystr) (sv : service) :
  (forall b sv', fst (translate b sv') = Some (map f b)) ->
  fst (batch_translate_texts translate texts sv) = map f texts.
Proof.
  intros H. unfold batch_translate_texts.
  destruct texts as [|t texts]; [reflexivity | ]. cbn [truthy negb].
  pose proof (translate_batches_pointwise f (t :: texts) H
                (py_range (len (t :: texts)) 128) [] sv) as E.
  destruct (translate_batches _ _ _ _ _) as [[r|] sv']; cbn in E;
    [ | discriminate].
  injection E as ->. cbn [fst]. f_equal. apply batches_partition.
Qed.

Lemma batches_length (texts : list pystr) (sv : service) :
  (forall b sv' r, fst (translate b sv') = Some r -> len r = len b) ->
  len (fst (batch_translate_texts translate texts sv)) = len texts.
Proof.
  intros H. unfold batch_translate_texts.
  destruct texts as [|t texts]; [reflexivity | ]. cbn [truthy negb].
  pose proof (translate_batches_length (t :: texts) H
                (py_range (len (t :: texts)) 128) [] sv) as E.
  destruct (translate_batches _ _ _ _ _) as [[r|] sv']; cbn [fst] in *;
    [ | reflexivity].
  rewrite (E r eq_refl). change (len []) with 0.
  now rewrite (proj1 (batches_partition (t :: texts))).
Qed.

Lemma batches_unavailable (texts : list pystr) (sv : service) :
  (forall b sv', fst (translate b sv') = None) ->
  fst (batch_translate_texts translate texts sv) = texts.
Proof.
  intros H. unfold batch_translate_texts.
  destruct texts as [|t texts]; [reflexivity | ]. cbn [truthy negb].
  pose proof (translate_batches_unavailable (t :: texts) H
                (py_range (len (t :: texts)) 128) [] sv) as E.
  destruct (translate_batches _ _ _ _ _) as [[r|] sv']; cbn [fst] in *;
    [ | reflexivity].
  assert (N : py_range (len (t :: texts)) 128 <> []).
  { unfold py_range. rewrite len_cons. pose proof (len_nonneg texts).
    destruct (Z.to_nat (1 + len texts)) eqn:Z; [lia | ]. cbn [range_from].
    destruct (0 <? 1 + len texts) eqn:L; [discriminate | ].
    apply Z.ltb_ge in L. lia. }
  specialize (E N). discriminate.
Qed.

End AnyService.

(** Batching is not seen through a service that translates text by text:
    the result is the input translated text by text, in order. *)
Theorem batch_translate_texts_pointwise {service : Type}
        (translate : list pystr -> service -> option (list pystr) * service)
        (f : pystr -> pystr) (texts : list pystr) (sv : service) :
  (forall b sv', fst (translate b sv') = Some (map f b)) ->
  fst (batch_translate_texts translate texts sv) = map f texts.
Proof. apply batches_pointwise. Qed.

(** When every answer of the service has as many texts as the batch it was
    sent, the result has as many texts as the input, whether the calls
    succeed or not. *)
Theorem batch_translate_texts_length {service : Type}
        (translate : list pystr -> service -> option (list pystr) * service)
        (texts : list pystr) (sv : service) :
  (forall b sv' r, fst (translate b sv') = Some r -> len r = len b) ->
  len (fst (batch_translate_texts translate texts sv)) = len texts.
Proof. apply batches_length. Qed.

(** When the service raises on every call, the input texts are returned as
    they are. *)
Theorem batch_translate_texts_unavailable {service : Type}
        (translate : list pystr -> service -> option (list pystr) * service)
        (texts : list pystr) (sv : service) :
  (forall b sv', fst (translate b sv') = None) ->
  fst (batch_translate_texts translate texts sv) = texts.
Proof. apply batches_unavailable. Qed.

Lemma batch_translate_texts_pointwise_witness :
  fst (batch_translate_texts (pointwise toy_translation) many_texts tt)
  = map toy_translation many_texts.
Proof.
  apply (batch_translate_texts_pointwise (pointwise toy_translation)
           toy_translation many_texts tt).
  reflexivity.
Defined.

Lemma batch_translate_texts_length_witness :
  len (fst (batch_translate_texts (pointwise toy_translation) many_texts tt))
  = len many_texts.
Proof.
  apply (batch_translate_texts_length (pointwise toy_translation) many_texts tt).
  intros b sv' r E. cbn in E. injection E as <-. unfold len.
  now rewrite length_map.
Defined.

Lemma batch_translate_texts_unavailable_witness :
  fst (batch_translate_texts unavailable many_texts tt) = many_texts.
Proof.
  apply (batch_translate_texts_unavailable unavailable many_texts tt).
  reflexivity.
Defined.

(** ** The calls a run makes *)

Lemma app_same_length {A : Type} (l1 l2 k1 k2 : list A) :
  l1 ++ l2 = k1 ++ k2 -> List.length l1 = List.length k1 ->
  l1 = k1 /\ l2 = k2.
Proof.
  revert k1. induction l1 as [|x l1 IH]; intros [|y k1] E L;
    cbn in L; try discriminate.
  - now split.
  - cbn in E. injection E as -> E. injection L as L.
    destruct (IH k1 E L) as [-> ->]. now split.
Qed.

Section Recording.
Variable answer : list (list pystr) -> list pystr -> option (list pystr).
Variable texts : list pystr.

Let sl (j : Z) : list pystr := slice texts j (j + 128).

Lemma recording_step (i : Z) (idxs : list Z) (acc : list pystr)
      (c0 : list (list pystr)) :
  translate_batches (recording answer) (i :: idxs) texts acc c0 =
  match answer c0 (sl i) with
  | Some tr =>
      translate_batches (recording answer) idxs texts (acc ++ tr) (c0 ++ [sl i])
  | None => (None, c0 ++ [sl i])
  end.
Proof.
  cbn [translate_batches]. cbv zeta. unfold recording at 1. fold (sl i).
  now destruct (answer c0 (sl i)).
Qed.

Lemma recording_calls (idxs : list Z) (acc : list pystr)
      (c0 : list (list pystr)) :
  exists k,
    snd (translate_batches (recording answer) idxs texts acc c0)
    = c0 ++ firstn k (map sl idxs) /\
    ((forall h b, answer h b <> None) -> firstn k (map sl idxs) = map sl idxs).
Proof.
  revert acc c0. induction idxs as [|i idxs IH]; intros acc c0.
  - exists 0%nat. cbn. now rewrite app_nil_r.
  - rewrite recording_step. destruct (answer c0 (sl i)) as [tr|] eqn:E.
    + destruct (IH (acc ++ tr) (c0 ++ [sl i])) as (k & HS & F).
      exists (Datatypes.S k). cbn [map firstn]. rewrite HS, <- app_assoc. split.
      * reflexivity.
      * intros H. now rewrite (F H).
    + exists 1%nat. cbn [snd map firstn]. split.
      * reflexivity.
      * intros H. exfalso. exact (H _ _ E).
Qed.

Lemma recording_success (idxs : list Z) (acc : list pystr)
      (c0 : list (list pystr)) (x : list pystr) :
  fst (translate_batches (recording answer) idxs texts acc c0) = Some x ->
  forall h b t,
    snd (translate_batches (recording answer) idxs texts acc c0) = h ++ b :: t ->
    (List.length c0 <= List.length h)%nat ->
    answer h b <> None.
Proof.
  revert acc c0. induction idxs as [|i idxs IH]; intros acc c0.
  - cbn. intros _ h b t E L. exfalso.
    apply (f_equal (@List.length _)) in E. rewrite length_app in E.
    cbn in E. lia.
  - rewrite recording_step. destruct (answer c0 (sl i)) as [tr|] eqn:E;
      [ | discriminate].
    intros F h b t HS L.
    destruct (Nat.eq_dec (List.length h) (List.length c0)) as [Q | Q].
    + destruct (recording_calls idxs (acc ++ tr) (c0 ++ [sl i])) as (k & S' & _).
      rewrite S', <- app_assoc in HS. cbn [app] in HS.
      destruct (app_same_length _ _ _ _ HS (eq_sym Q)) as [-> B].
      injection B as <- _. congruence.
    + apply (IH _ _ F h b t HS). rewrite length_app. cbn. lia.
Qed.

End Recording.

Lemma batch_translate_texts_state {service : Type}
      (translate : list pystr -> service -> option (list pystr) * service)
      (texts : list pystr) (sv : service) :
  snd (batch_translate_texts translate texts sv) =
  if truthy texts
  then snd (translate_batches translate (py_range (len texts) 128) texts [] sv)
  else sv.
Proof.
  unfold batch_translate_texts. destruct texts as [|t texts]; [reflexivity | ].
  cbn [truthy negb]. now destruct (translate_batches _ _ _ _ _) as [[r|] sv'].
Qed.

(** Every text is sent to the service once, in order, in batches of at least
    one and at most 128 texts: the batches of the calls made are a beginning
    of the input cut into such pieces, and all of it when no call raises.
    No call is made for an empty input. *)
Theorem every_text_is_sent_once
        (answer : list (list pystr) -> list pystr -> option (list pystr))
        (texts : list pystr) :
  let calls := snd (batch_translate_texts (recording answer) texts []) in
  Forall (fun b => 1 <= len b <= 128) calls /\
  (exists rest, texts = List.concat calls ++ rest) /\
  ((forall h b, answer h b <> None) -> List.concat calls = texts).
Proof.
  cbv zeta. rewrite batch_translate_texts_state.
  destruct (truthy texts) eqn:T.
  2:{ destruct texts; [ | discriminate]. cbn.
      split; [constructor | ]. split; [now exists [] | reflexivity]. }
  destruct (recording_calls answer texts (py_range (len texts) 128) [] [])
    as (k & -> & F).
  destruct (batches_partition texts) as [C B]. cbv zeta in C, B.
  cbn [app]. split; [ | split].
  - apply Forall_forall. intros b I.
    apply (proj1 (Forall_forall _ _) B).
    rewrite <- (firstn_skipn k (map _ _)). apply in_or_app. now left.
  - exists (List.concat
              (skipn k (map (fun j => slice texts j (j + 128))
                            (py_range (len texts) 128)))).
    rewrite <- concat_app, firstn_skipn. now rewrite C.
  - intros H. rewrite (F H). exact C.
Qed.

Lemma every_text_is_sent_once_witness :
  List.concat (snd (batch_translate_texts
                      (recording (fun _ b => Some (map toy_translation b)))
                      many_texts []))
  = many_texts.
Proof.
  apply (every_text_is_sent_once
           (fun _ b => Some (map toy_translation b)) many_texts).
  discriminate.
Defined.

(** When a call raises, the texts are returned as they were given: what the
    earlier calls translated is dropped. *)
Theorem one_failure_returns_the_input
        (answer : list (list pystr) -> list pystr -> option (list pystr))
        (texts : list pystr) (h : list (list pystr)) (b : list pystr)
        (t : list (list pystr)) :
  snd (batch_translate_texts (recording answer) texts []) = h ++ b :: t ->
  answer h b = None ->
  fst (batch_translate_texts (recording answer) texts []) = texts.
Proof.
  unfold batch_translate_texts.
  destruct texts as [|t0 texts]; [reflexivity | ]. cbn [truthy negb].
  set (ts := t0 :: texts).
  pose proof (recording_success answer ts (py_range (len ts) 128) [] []) as R.
  destruct (translate_batches _ _ _ _ _) as [[r|] sv']; cbn [fst snd] in *;
    [ | reflexivity].
  intros S N. exfalso. apply (R r eq_refl h b t S); [cbn; lia | exact N].
Qed.

Lemma one_failure_returns_the_input_witness :
  fst (batch_translate_texts
         (recording (fun calls b => match calls with
                                    | [] => Some b
                                    | _ :: _ => None
                                    end))
         many_texts [])
  = many_texts.
Proof.
  apply (one_failure_returns_the_input _ many_texts
           [firstn 128 many_texts]
           (firstn 128 (skipn 128 many_texts)) []);
    reflexivity.
Defined.

(** ** Collecting the texts of a paragraph and putting them back *)

Lemma collect_answers_acc (l : list Answer) (acc : list pystr) :
  fold_left (fun qa_texts answer => qa_texts ++ [text answer]) l acc
  = acc ++ map text l.
Proof.
  revert acc. induction l as [|a l IH]; intros acc; cbn [fold_left map].
  - now rewrite app_nil_r.
  - rewrite IH, <- app_assoc. reflexivity.
Qed.

Lemma collect_qa_texts_acc (l : list QA) (acc : list pystr) :
  fold_left
    (fun qa_texts qa =>
       fold_left (fun qa_texts answer => qa_texts ++ [text answer])
                 (answers qa) (qa_texts ++ [question qa]))
    l acc
  = acc ++ flat_map (fun qa => question qa :: map text (answers qa)) l.
Proof.
  revert acc. induction l as [|qa l IH]; intros acc; cbn [fold_left flat_map].
  - now rewrite app_nil_r.
  - rewrite IH, collect_answers_acc, <- !app_assoc. reflexivity.
Qed.

Lemma collect_qa_texts_flat (l : list QA) :
  collect_qa_texts l
  = flat_map (fun qa => question qa :: map text (answers qa)) l.
Proof. unfold collect_qa_texts. now rewrite collect_qa_texts_acc. Qed.

Lemma collect_qa_texts_cons (qa : QA) (l : list QA) :
  collect_qa_texts (qa :: l)
  = question qa :: map text (answers qa) ++ collect_qa_texts l.
Proof. now rewrite !collect_qa_texts_flat. Qed.

Lemma len_map {A B : Type} (f : A -> B) (l : list A) : len (map f l) = len l.
Proof. unfold len. now rewrite length_map. Qed.

Lemma len_collect_cons (qa : QA) (l : list QA) :
  len (collect_qa_texts (qa :: l))
  = 1 + len (answers qa) + len (collect_qa_texts l).
Proof. rewrite collect_qa_texts_cons, len_cons, len_app, len_map. lia. Qed.

Lemma getitem_nonneg {A : Type} (l : list A) (i : Z) :
  0 <= i -> getitem l i = nth_error l (Z.to_nat i).
Proof.
  intros H. unfold getitem. destruct (i <? 0) eqn:E; [ | reflexivity].
  apply Z.ltb_lt in E. lia.
Qed.

Lemma getitem_middle {A : Type} (pre post : list A) (x : A) :
  getitem (pre ++ x :: post) (len pre) = Some x.
Proof.
  rewrite getitem_nonneg by apply len_nonneg. unfold len. rewrite Nat2Z.id.
  rewrite nth_error_app2 by lia. now rewrite Nat.sub_diag.
Qed.

Lemma getitem_some {A : Type} (l : list A) (i : Z) :
  0 <= i -> (getitem l i <> None <-> i < len l).
Proof.
  intros H. rewrite getitem_nonneg by exact H. rewrite nth_error_Some.
  unfold len. lia.
Qed.

Lemma slice_empty {A : Type} (l : list A) (i : Z) : slice l i i = [].
Proof. unfold slice. now rewrite Z.sub_diag. Qed.

Lemma slice_step {A : Type} (l : list A) (i j : Z) (x : A) :
  0 <= i -> i + 1 <= j -> getitem l i = Some x ->
  slice l i j = x :: slice l (i + 1) j.
Proof.
  intros Hi Hj G. rewrite getitem_nonneg in G by exact Hi. unfold slice.
  replace (Z.to_nat (j - i)) with (S (Z.to_nat (j - (i + 1)))) by lia.
  replace (Z.to_nat (i + 1)) with (S (Z.to_nat i)) by lia.
  generalize dependent (Z.to_nat i). intros n. revert l.
  induction n as [|n IH]; intros l G.
  - destruct l; cbn in G; [discriminate | ]. injection G as ->. reflexivity.
  - destruct l; cbn in G; [discriminate | ]. cbn [skipn]. now apply IH.
Qed.

Lemma slice_app {A : Type} (l : list A) (i j k : Z) :
  0 <= i -> i <= j -> j <= k ->
  slice l i j ++ slice l j k = slice l i k.
Proof.
  intros Hi Hj Hk. unfold slice.
  rewrite <- (firstn_skipn (Z.to_nat (j - i))
                (firstn (Z.to_nat (k - i)) (skipn (Z.to_nat i) l))).
  rewrite firstn_firstn, skipn_firstn_comm, skipn_skipn. f_equal.
  - f_equal. lia.
  - f_equal; [lia | f_equal; lia].
Qed.

Lemma translate_answers_any (l : list Answer) (tr : list pystr) :
  forall i acc r j,
    0 <= i ->
    translate_answers l tr i acc = Some (r, j) ->
    exists new,
      r = acc ++ new /\
      map answer_start new = map answer_start l /\
      j = i + len l /\
      map text new = slice tr i j.
Proof.
  induction l as [|a l IH]; intros i acc r j Hi E; cbn [translate_answers] in E.
  - injection E as <- <-. exists []. rewrite app_nil_r, slice_empty.
    repeat split. change (len []) with 0. lia.
  - destruct (getitem tr i) as [t|] eqn:G; [ | discriminate].
    destruct (answer_start a) as [s|] eqn:Hst; [ | discriminate].
    assert (Hi' : 0 <= i + 1) by lia.
    destruct (IH _ _ _ _ Hi' E) as (new & -> & Hs & -> & Ht).
    exists ({| text := t; answer_start := Some s |} :: new).
    rewrite <- app_assoc, len_cons. cbn [app map text answer_start].
    rewrite Hs, Hst, Ht. repeat split; [lia | ].
    pose proof (len_nonneg l). symmetry. apply slice_step; [lia | lia | exact G].
Qed.

Lemma translate_qas_any (l : list QA) (tr : list pystr) :
  forall i acc qp r j qp',
    0 <= i ->
    translate_qas l tr i acc qp = Some (r, j, qp') ->
    exists new,
      r = acc ++ new /\
      Forall2 translated_qa_of new l /\
      j = i + len (collect_qa_texts l) /\
      qp' = qp + len l /\
      collect_qa_texts new = slice tr i j.
Proof.
  induction l as [|qa l IH]; intros i acc qp r j qp' Hi E;
    cbn [translate_qas] in E.
  - injection E as <- <- <-. exists []. rewrite app_nil_r, slice_empty.
    change (len (collect_qa_texts [])) with 0. change (len (@nil QA)) with 0.
    split; [reflexivity | ]. split; [constructor | ].
    split; [lia | ]. split; [lia | reflexivity].
  - destruct (getitem tr i) as [q|] eqn:G; [ | discriminate].
    destruct (translate_answers (answers qa) tr (i + 1) []) as [[ans j1]|] eqn:T;
      [ | discriminate].
    assert (Hi' : 0 <= i + 1) by lia.
    destruct (translate_answers_any _ _ _ _ _ _ Hi' T)
      as (newa & Ha & Hs & Hj & Ht).
    cbn [app] in Ha. subst ans.
    pose proof (len_nonneg (answers qa)) as La.
    assert (Hj1 : 0 <= j1) by lia.
    destruct (IH _ _ _ _ _ _ Hj1 E) as (new & -> & F & -> & -> & Hc).
    exists ({| id := id qa; question := q; answers := newa |} :: new).
    rewrite <- app_assoc. cbn [app].
    pose proof (len_nonneg (collect_qa_texts l)) as Lc.
    split; [reflexivity | ]. split; [ | split; [ | split]].
    + constructor; [ | exact F]. split; [reflexivity | exact Hs].
    + rewrite len_collect_cons. lia.
    + rewrite len_cons. lia.
    + rewrite collect_qa_texts_cons. cbn [question answers]. rewrite Ht, Hc.
      rewrite slice_app by lia. symmetry. apply slice_step; [lia | lia | exact G].
Qed.

Lemma translate_answers_succeeds (l : list Answer) (tr : list pystr) :
  forall i acc,
    0 <= i <= len tr ->
    (translate_answers l tr i acc <> None <->
     i + len l <= len tr /\
     forallb (fun a => match answer_start a with
                       | Some _ => true
                       | None => false
                       end) l = true).
Proof.
  induction l as [|a l IH]; intros i acc Hi; cbn [translate_answers forallb].
  - change (len []) with 0. split; [intros _; split; [lia | reflexivity] | discriminate].
  - rewrite len_cons. pose proof (len_nonneg l) as Ll.
    pose proof (getitem_some tr i ltac:(lia)) as G.
    destruct (getitem tr i) as [t|].
    + assert (Lt : i < len tr) by (apply G; discriminate).
      destruct (answer_start a) as [s|]; cbn [andb].
      * rewrite IH by lia. split; intros [H1 H2]; (split; [lia | exact H2]).
      * split; [congruence | intros [_ H]; discriminate].
    + assert (Ge : ~ i < len tr) by (intros H; apply G in H; congruence).
      split; [congruence | intros [H _]; lia].
Qed.

Lemma translate_qas_succeeds (l : list QA) (tr : list pystr) :
  forall i acc qp,
    0 <= i <= len tr ->
    (translate_qas l tr i acc qp <> None <->
     i + len (collect_qa_texts l) <= len tr /\
     forallb qa_has_starts l = true).
Proof.
  induction l as [|qa l IH]; intros i acc qp Hi; cbn [translate_qas forallb].
  - change (len (collect_qa_texts [])) with 0.
    split; [intros _; split; [lia | reflexivity] | discriminate].
  - rewrite len_collect_cons.
    pose proof (len_nonneg (answers qa)) as La.
    pose proof (len_nonneg (collect_qa_texts l)) as Lc.
    pose proof (getitem_some tr i ltac:(lia)) as G.
    destruct (getitem tr i) as [q|].
    + assert (Lt : i < len tr) by (apply G; discriminate).
      pose proof (translate_answers_succeeds (answers qa) tr (i + 1) []
                    ltac:(lia)) as A.
      fold (qa_has_starts qa) in A.
      destruct (translate_answers (answers qa) tr (i + 1) []) as [[ans j1]|] eqn:T.
      * destruct (proj1 A ltac:(discriminate)) as [A1 A2].
        assert (Hi' : 0 <= i + 1) by lia.
        destruct (translate_answers_any _ _ _ _ _ _ Hi' T)
          as (_ & _ & _ & -> & _).
        rewrite IH by lia. rewrite A2. cbn [andb].
        split; intros [H1 H2]; (split; [lia | exact H2]).
      * split; [congruence | ]. intros [H1 H2].
        apply andb_true_iff in H2. destruct H2 as [H2 _].
        exfalso. apply (proj2 A); [split; [lia | exact H2] | reflexivity].
    + assert (Ge : ~ i < len tr) by (intros H; apply G in H; congruence).
      split; [congruence | intros [H _]; lia].
Qed.

Lemma translate_answers_replied (f : pystr -> pystr) (l : list Answer) :
  forall pre post acc,
    forallb (fun a => match answer_start a with
                      | Some _ => true
                      | None => false
                      end) l = true ->
    translate_answers l (pre ++ map f (map text l) ++ post) (len pre) acc
    = Some (acc ++ map (fun a => {| text := f (text a);
                                    answer_start := answer_start a |}) l,
            len pre + len l).
Proof.
  induction l as [|a l IH]; intros pre post acc H; cbn [translate_answers map].
  - rewrite app_nil_r. change (len []) with 0. now rewrite Z.add_0_r.
  - cbn [forallb] in H. apply andb_true_iff in H. destruct H as [Hs Hl].
    cbn [app]. rewrite getitem_middle.
    destruct (answer_start a) as [s|] eqn:Hst; [ | discriminate].
    specialize (IH (pre ++ [f (text a)]) post
                   (acc ++ [{| text := f (text a); answer_start := Some s |}]) Hl).
    rewrite <- app_assoc in IH. cbn [app] in IH.
    rewrite len_app in IH. change (len [f (text a)]) with 1 in IH.
    rewrite IH, <- app_assoc, len_cons. cbn [app]. f_equal. f_equal. lia.
Qed.

Lemma translate_qas_replied (f : pystr -> pystr) (l : list QA) :
  forall pre post acc qp,
    forallb qa_has_starts l = true ->
    translate_qas l (pre ++ map f (collect_qa_texts l) ++ post) (len pre) acc qp
    = Some (acc ++ map (translated_qa f) l,
            len pre + len (collect_qa_texts l), qp + len l).
Proof.
  induction l as [|qa l IH]; intros pre post acc qp H; cbn [translate_qas map].
  - rewrite app_nil_r. change (len (collect_qa_texts [])) with 0.
    change (len []) with 0. now rewrite !Z.add_0_r.
  - cbn [forallb] in H. apply andb_true_iff in H. destruct H as [Hs Hl].
    rewrite len_collect_cons.
    rewrite collect_qa_texts_cons. cbn [map app]. rewrite getitem_middle.
    rewrite map_app.
    pose proof (translate_answers_replied f (answers qa)
                  (pre ++ [f (question qa)])
                  (map f (collect_qa_texts l) ++ post) [] Hs) as A.
    rewrite <- !app_assoc in A. cbn [app] in A. rewrite len_app in A.
    change (len [f (question qa)]) with 1 in A.
    rewrite <- app_assoc. rewrite A.
    specialize (IH (pre ++ f (question qa) :: map f (map text (answers qa)))
                   post
                   (acc ++ [translated_qa f qa]) (qp + 1) Hl).
    rewrite <- !app_assoc in IH. cbn [app] in IH.
    rewrite len_app, len_cons, !len_map in IH.
    replace (len pre + 1 + len (answers qa))
      with (len pre + (1 + len (answers qa))) by lia.
    unfold translated_qa at 1 in IH. rewrite IH.
    rewrite len_cons. f_equal. f_equal; [f_equal; lia | lia].
Qed.

(** Putting the texts back inverts their collection.  When the texts come
    back translated text by text, every pair that has its offsets gets its
    own question and its own answer texts, translated, with its id and its
    offsets; texts that come after them are not read. *)
Theorem putting_back_inverts_collecting
        (f : pystr -> pystr) (l : list QA) (extra : list pystr) (qp : Z) :
  forallb qa_has_starts l = true ->
  translate_qas l (map f (collect_qa_texts l) ++ extra) 0 [] qp
  = Some (map (translated_qa f) l, len (collect_qa_texts l), qp + len l).
Proof.
  intros H. exact (translate_qas_replied f l [] extra [] qp H).
Qed.

Lemma putting_back_inverts_collecting_witness :
  translate_qas (qas english_paragraph)
    (map toy_translation (collect_qa_texts (qas english_paragraph)) ++
     [lit "one text too many"]) 0 [] 0
  = Some (map (translated_qa toy_translation) (qas english_paragraph), 5, 2).
Proof.
  apply (putting_back_inverts_collecting toy_translation
           (qas english_paragraph) [lit "one text too many"] 0).
  reflexivity.
Defined.

(** The pairs of a paragraph are rebuilt if and only if the service gave at
    least as many texts as were sent and every answer has its
    ['answer_start']; otherwise the rebuilding raises. *)
Theorem putting_back_succeeds_iff (l : list QA) (tr : list pystr) (qp : Z) :
  translate_qas l tr 0 [] qp <> None <->
  len (collect_qa_texts l) <= len tr /\ forallb qa_has_starts l = true.
Proof.
  pose proof (len_nonneg tr).
  rewrite (translate_qas_succeeds l tr 0 [] qp) by lia.
  now rewrite Z.add_0_l.
Qed.

(** Whatever texts the service gives, pairs that are rebuilt keep, in order,
    the ids of the pairs of the paragraph, the number of their answers and
    the recorded offsets of these; their texts are, in the order of
    collection, the first texts given. *)
Theorem translation_keeps_ids_and_offsets
        (l : list QA) (tr : list pystr) (qp : Z)
        (r : list QA) (j qp' : Z) :
  translate_qas l tr 0 [] qp = Some (r, j, qp') ->
  Forall2 translated_qa_of r l /\
  j = len (collect_qa_texts l) /\
  collect_qa_texts r = firstn (Z.to_nat j) tr /\
  qp' = qp + len l.
Proof.
  intros E.
  destruct (translate_qas_any l tr 0 [] qp r j qp' ltac:(lia) E)
    as (new & -> & F & -> & -> & C).
  cbn [app]. repeat split; [exact F | ].
  rewrite C. unfold slice. cbn [Z.to_nat skipn]. f_equal. lia.
Qed.

Lemma translation_keeps_ids_and_offsets_witness :
  Forall2 translated_qa_of
    (map (translated_qa toy_translation) (qas english_paragraph))
    (qas english_paragraph) /\
  5 = len (collect_qa_texts (qas english_paragraph)) /\
  collect_qa_texts (map (translated_qa toy_translation) (qas english_paragraph))
  = firstn (Z.to_nat 5)
      (map toy_translation (collect_qa_texts (qas english_paragraph)) ++
       [lit "one text too many"]) /\
  2 = 0 + len (qas english_paragraph).
Proof.
  apply (translation_keeps_ids_and_offsets (qas english_paragraph)
           (map toy_translation (collect_qa_texts (qas english_paragraph)) ++
            [lit "one text too many"]) 0).
  reflexivity.
Defined.

Lemma putting_back_succeeds_witness :
  translate_qas (qas english_paragraph)
    (collect_qa_texts (qas english_paragraph)) 0 [] 0 <> None.
Proof.
  apply (proj2 (putting_back_succeeds_iff (qas english_paragraph)
                  (collect_qa_texts (qas english_paragraph)) 0)).
  split; [vm_compute; discriminate | reflexivity].
Defined.

(** ** A run of [translate_squad_batch], whatever the service answers *)

Lemma embeds_prefix {A B : Type} (R : A -> B -> Prop) (l : list A)
      (k rest : list B) :
  Forall2 R l k -> embeds R l (k ++ rest).
Proof.
  intros F. induction F; cbn [app].
  - induction rest; [constructor | now apply embeds_skip].
  - now apply embeds_keep.
Qed.

Lemma embeds_length {A B : Type} (R : A -> B -> Prop) (l : list A) (k : list B) :
  embeds R l k -> len l <= len k.
Proof.
  intros E. induction E; unfold len in *; cbn [List.length]; lia.
Qed.

Lemma embeds_in {A B : Type} (R : A -> B -> Prop) (l : list A) (k : list B) :
  embeds R l k -> forall x, In x l -> exists y, In y k /\ R x y.
Proof.
  intros E. induction E; intros z I.
  - destruct I.
  - destruct (IHE z I) as (y' & Iy & Ry). exists y'. split; [now right | exact Ry].
  - destruct I as [<- | I].
    + exists y. split; [now left | assumption].
    + destruct (IHE z I) as (y' & Iy & Ry). exists y'.
      split; [now right | exact Ry].
Qed.

Lemma combine_fst_prefix {A B : Type} (l : list A) (l' : list B) :
  exists rest, l = map fst (combine l l') ++ rest.
Proof.
  revert l'. induction l as [|x l IH]; intros l'.
  - now exists [].
  - destruct l' as [|y l']; cbn [combine map].
    + now exists (x :: l).
    + destruct (IH l') as [rest E]. exists rest. cbn [app]. now rewrite <- E.
Qed.

Lemma sum_qas_cons (p : Paragraph) (ps : list Paragraph) :
  sum_qas (p :: ps) = len (qas p) + sum_qas ps.
Proof. reflexivity. Qed.

Lemma Forall2_len {A B : Type} (R : A -> B -> Prop) (l : list A) (k : list B) :
  Forall2 R l k -> len l = len k.
Proof. intros F. unfold len. now rewrite (Forall2_length F). Qed.

Section AnyRun.
Context {service : Type}.
Variable translate : list pystr -> service -> option (list pystr) * service.
Variable config : Config.

Lemma translate_paragraph_any (acc : list Paragraph) (p : Paragraph)
      (tc : pystr) (st : TState service) (acc' : list Paragraph)
      (st' : TState service) :
  translate_paragraph translate acc (p, tc) st = Some (acc', st') ->
  exists t,
    acc' = acc ++ [t] /\ translated_paragraph_of t p /\
    contexts_processed st' = contexts_processed st + 1 /\
    qa_pairs_processed st' = qa_pairs_processed st + len (qas t).
Proof.
  unfold translate_paragraph.
  destruct (batch_translate_texts translate _ _) as [tr sv].
  destruct (translate_qas _ _ _ _ _) as [[[r j] qp']|] eqn:T; [ | discriminate].
  intros E. injection E as <- <-.
  destruct (translate_qas_any _ _ _ _ _ _ _ _ (Z.le_refl 0) T)
    as (new & -> & F & _ & -> & _).
  cbn [app] in *. exists {| context := tc; qas := new |}.
  cbn [contexts_processed qa_pairs_processed qas].
  rewrite (Forall2_len _ _ _ F). repeat split. exact F.
Qed.

Lemma translate_paragraphs_any (items : list (Paragraph * pystr)) :
  forall acc st acc' st',
    translate_paragraphs translate items acc st = Some (acc', st') ->
    exists new,
      acc' = acc ++ new /\
      Forall2 translated_paragraph_of new (map fst items) /\
      contexts_processed st' = contexts_processed st + len new /\
      qa_pairs_processed st' = qa_pairs_processed st + sum_qas new.
Proof.
  induction items as [|[p tc] items IH]; intros acc st acc' st' E;
    cbn [translate_paragraphs] in E.
  - injection E as <- <-. exists []. rewrite app_nil_r.
    repeat split; [constructor | | ]; cbn; lia.
  - destruct (translate_paragraph translate acc (p, tc) st) as [[acc1 st1]|] eqn:P;
      [ | discriminate].
    destruct (translate_paragraph_any _ _ _ _ _ _ P) as (t & -> & R & C & Q).
    destruct (IH _ _ _ _ E) as (new & -> & F & C' & Q').
    exists (t :: new). rewrite <- app_assoc. cbn [app map fst].
    rewrite len_cons, sum_qas_cons.
    repeat split; [now constructor | lia | lia].
Qed.

Lemma process_batch_any (cbc : list pystr) (cbp acc : list Paragraph)
      (st : TState service) (acc' : list Paragraph) (st' : TState service) :
  process_batch translate cbc cbp acc st = Some (acc', st') ->
  exists new,
    acc' = acc ++ new /\
    embeds translated_paragraph_of new cbp /\
    contexts_processed st' = contexts_processed st + len new /\
    qa_pairs_processed st' = qa_pairs_processed st + sum_qas new /\
    len new <= len cbp.
Proof.
  unfold process_batch.
  destruct (batch_translate_texts translate cbc (client st)) as [tcs sv].
  intros E. destruct (translate_paragraphs_any _ _ _ _ _ E) as (new & -> & F & C & Q).
  cbn [contexts_processed qa_pairs_processed] in C, Q.
  destruct (combine_fst_prefix cbp tcs) as [rest R].
  assert (Em : embeds translated_paragraph_of new cbp).
  { rewrite R. now apply embeds_prefix. }
  exists new. repeat split; try assumption. now apply embeds_length with (1 := Em).
Qed.

End AnyRun.

Lemma embeds_nil_l {A B : Type} (R : A -> B -> Prop) (k : list B) :
  embeds R [] k.
Proof. induction k; [constructor | now apply embeds_skip]. Qed.

Lemma embeds_extend {A B : Type} (R : A -> B -> Prop) (l : list A)
      (k rest : list B) :
  embeds R l k -> embeds R l (k ++ rest).
Proof.
  intros E. rewrite <- (app_nil_r l).
  apply embeds_app; [exact E | apply embeds_nil_l].
Qed.

Lemma count_paragraphs_cons (a : Article) (l : list Article) :
  count_paragraphs (a :: l) = len (paragraphs a) + count_paragraphs l.
Proof. unfold count_paragraphs. cbn [flat_map]. apply len_app. Qed.

Section AnyRunLoops.
Context {service : Type}.
Variable translate : list pystr -> service -> option (list pystr) * service.
Variable config : Config.

Lemma paragraphs_loop_any (paras : list Paragraph) :
  forall cbc cbp acc st cbc' cbp' acc' st',
    paragraphs_loop translate config paras cbc cbp acc st
    = Some (cbc', cbp', acc', st') ->
    len cbc = len cbp ->
    (cbp <> [] -> contexts_processed st < max_contexts config) ->
    len cbp < Z.max (batch_size config) 1 ->
    exists new consumed rest,
      acc' = acc ++ new /\
      cbp ++ paras = consumed ++ cbp' ++ rest /\
      embeds translated_paragraph_of new consumed /\
      contexts_processed st' = contexts_processed st + len new /\
      qa_pairs_processed st' = qa_pairs_processed st + sum_qas new /\
      len cbc' = len cbp' /\
      (cbp' <> [] -> contexts_processed st' < max_contexts config) /\
      len cbp' < Z.max (batch_size config) 1 /\
      contexts_processed st'
      <= Z.max (contexts_processed st)
               (max_contexts config + Z.max (batch_size config) 1 - 1).
Proof.
  induction paras as [|para paras IH];
    intros cbc cbp acc st cbc' cbp' acc' st' E L N B;
    cbn [paragraphs_loop] in E.
  - injection E as <- <- <- <-. exists [], [], [].
    rewrite !app_nil_r. cbn [app].
    repeat split; try assumption; try constructor; cbn; lia.
  - destruct (contexts_processed st >=? max_contexts config) eqn:Brk.
    + injection E as <- <- <- <-. exists [], [], (para :: paras).
      rewrite !app_nil_r. cbn [app].
      repeat split; try assumption; try constructor; cbn; lia.
    + assert (Lt : contexts_processed st < max_contexts config).
      { destruct (Z.geb_spec (contexts_processed st) (max_contexts config));
          [discriminate | lia]. }
      cbv zeta in E.
      assert (L1 : len (cbc ++ [context para]) = len (cbp ++ [para])).
      { rewrite !len_app. cbn. lia. }
      assert (L2 : len (cbp ++ [para]) = len cbp + 1).
      { rewrite len_app. reflexivity. }
      destruct (len (cbc ++ [context para]) >=? batch_size config) eqn:Fire.
      * destruct (process_batch translate _ _ acc st) as [[acc1 st1]|] eqn:P;
          [ | discriminate].
        destruct (process_batch_any _ _ _ _ _ _ _ P)
          as (new1 & -> & E1 & C1 & Q1 & B1).
        destruct (IH _ _ _ _ _ _ _ _ E) as
            (new2 & consumed2 & rest2 & -> & S2 & E2 & C2 & Q2 & L' & N' & B' & M').
        { reflexivity. }
        { intros X. now contradiction X. }
        { cbn. lia. }
        exists (new1 ++ new2), ((cbp ++ [para]) ++ consumed2), rest2.
        cbn [app] in S2.
        rewrite !len_app, sum_qas_app in *.
        repeat split; try assumption.
        -- now rewrite app_assoc.
        -- rewrite <- !app_assoc. cbn [app]. rewrite <- S2. reflexivity.
        -- now apply embeds_app.
        -- lia.
        -- lia.
        -- lia.
      * assert (Lb : len (cbp ++ [para]) < Z.max (batch_size config) 1).
        { destruct (Z.geb_spec (len (cbc ++ [context para])) (batch_size config));
            [discriminate | lia]. }
        destruct (IH _ _ _ _ _ _ _ _ E L1 (fun _ => Lt) Lb) as
            (new & consumed & rest & -> & S' & E' & C' & Q' & L' & N' & B' & M').
        exists new, consumed, rest.
        repeat split; try assumption.
        rewrite <- S', <- app_assoc. reflexivity.
Qed.

Lemma translate_article_any (a : Article) (st : TState service)
      (ps : list Paragraph) (st' : TState service) :
  translate_article translate config a st = Some (ps, st') ->
  embeds translated_paragraph_of ps (paragraphs a) /\
  contexts_processed st' = contexts_processed st + len ps /\
  qa_pairs_processed st' = qa_pairs_processed st + sum_qas ps /\
  contexts_processed st'
  <= Z.max (contexts_processed st)
           (max_contexts config + Z.max (batch_size config) 1 - 1).
Proof.
  unfold translate_article.
  destruct (paragraphs_loop translate config (paragraphs a) [] [] [] st)
    as [[[[cbc' cbp'] acc1] st1]|] eqn:Lp; [ | discriminate].
  destruct (paragraphs_loop_any _ _ _ _ _ _ _ _ _ Lp)
    as (new & consumed & rest & -> & S' & E' & C' & Q' & L' & N' & B' & M').
  { reflexivity. }
  { intros X. now contradiction X. }
  { cbn. lia. }
  cbn [app] in S'. rewrite S'. cbn [app].
  destruct (truthy cbc') eqn:T.
  - intros P.
    destruct (process_batch_any _ _ _ _ _ _ _ P) as (new2 & -> & E2 & C2 & Q2 & B2).
    assert (Ne : cbp' <> []).
    { intros ->. destruct cbc'; [discriminate | ]. cbn in L'. lia. }
    specialize (N' Ne). rewrite len_app, sum_qas_app.
    repeat split; [ | lia | lia | lia].
    apply embeds_app; [exact E' | ].
    now apply embeds_extend.
  - intros P. injection P as <- <-.
    repeat split; [ | lia | lia | lia].
    now apply embeds_extend.
Qed.

Lemma articles_loop_any (articles : list Article) :
  forall translated st translated' final,
    articles_loop translate config articles translated st
    = (translated', final) ->
    exists new,
      translated' = translated ++ new /\
      embeds translated_article_of new articles /\
      Forall (fun a => paragraphs a <> []) new /\
      contexts_processed st + count_paragraphs new
      <= Z.max (contexts_processed st)
               (max_contexts config + Z.max (batch_size config) 1 - 1) /\
      (forall st', final = Some st' ->
         contexts_processed st'
         = contexts_processed st + count_paragraphs new /\
         qa_pairs_processed st' = qa_pairs_processed st + total_qas new).
Proof.
  induction articles as [|a articles IH]; intros translated st translated' final E;
    cbn [articles_loop] in E.
  - injection E as <- <-. exists []. rewrite app_nil_r.
    split; [reflexivity | ]. split; [constructor | ]. split; [constructor | ].
    split; [cbn; lia | ]. intros st' H. injection H as <-. cbn. lia.
  - destruct (contexts_processed st >=? max_contexts config).
    + injection E as <- <-. exists []. rewrite app_nil_r.
      split; [reflexivity | ]. split; [apply embeds_nil_l | ].
      split; [constructor | ]. split; [cbn; lia | ].
      intros st' H. injection H as <-. cbn. lia.
    + destruct (translate_article translate config a st) as [[ps st1]|] eqn:T.
      * destruct (translate_article_any _ _ _ _ T) as (Ea & Ca & Qa & Ba).
        destruct (truthy ps) eqn:Tp.
        -- destruct (IH _ _ _ _ E) as (new & -> & En & Fn & Bn & Sn).
           exists ({| title := title a; paragraphs := ps |} :: new).
           rewrite <- app_assoc. cbn [app].
           rewrite count_paragraphs_cons, total_qas_cons. cbn [paragraphs].
           split; [reflexivity | ]. split; [ | split; [ | split]].
           ++ apply embeds_keep; [ | exact En]. split; [reflexivity | exact Ea].
           ++ constructor; [ | exact Fn]. cbn. now apply truthy_true.
           ++ lia.
           ++ intros st' H. destruct (Sn st' H). lia.
        -- destruct ps; [ | discriminate].
           destruct (IH _ _ _ _ E) as (new & -> & En & Fn & Bn & Sn).
           exists new. change (len []) with 0 in *. change (sum_qas []) with 0 in *.
           split; [reflexivity | ]. split; [ | split; [ | split]].
           ++ now apply embeds_skip.
           ++ exact Fn.
           ++ lia.
           ++ intros st' H. destruct (Sn st' H). lia.
      * injection E as <- <-. exists []. rewrite app_nil_r.
        split; [reflexivity | ]. split; [apply embeds_nil_l | ].
        split; [constructor | ]. split; [cbn; lia | ].
        intros st' H. discriminate.
Qed.

End AnyRunLoops.

Lemma translate_squad_batch_any {service : Type}
      (translate : list pystr -> service -> option (list pystr) * service)
      (config : Config) (d : Dataset) (sv : service) :
  let run := translate_squad_batch translate config d sv in
  version (fst run) = Some (default_version d) /\
  embeds translated_article_of (data (fst run)) (data d) /\
  Forall (fun a => paragraphs a <> []) (data (fst run)) /\
  count_paragraphs (data (fst run))
  <= Z.max 0 (max_contexts config + Z.max (batch_size config) 1 - 1) /\
  (forall st, snd run = Some st ->
     contexts_processed st = count_paragraphs (data (fst run)) /\
     qa_pairs_processed st = total_qas (data (fst run))).
Proof.
  unfold translate_squad_batch.
  destruct (articles_loop translate config (data d) [] _) as [translated final] eqn:E.
  destruct (articles_loop_any _ _ _ _ _ _ _ E) as (new & -> & En & Fn & Bn & Sn).
  cbn [contexts_processed qa_pairs_processed app fst snd version data] in *.
  repeat split; try assumption; destruct (Sn st H); lia.
Qed.

(** [max_contexts] is not a strict limit.  The number of paragraphs written
    never exceeds [max_contexts - 1] plus one batch ([batch_size], or 1 when
    that is smaller), and nothing is written when [max_contexts] is not
    positive; but the count is compared before a paragraph joins a batch and
    raised only when the batch is processed, so the limit can be passed:
    with [max_contexts = 1] and [batch_size = 2] two paragraphs are
    written. *)
Theorem max_contexts_is_passed_by_less_than_a_batch :
  (forall (service : Type)
          (translate : list pystr -> service -> option (list pystr) * service)
          (config : Config) (d : Dataset) (sv : service),
     count_paragraphs (data (fst (translate_squad_batch translate config d sv)))
     <= Z.max 0 (max_contexts config + Z.max (batch_size config) 1 - 1)) /\
  max_contexts small_config = 1 /\
  count_paragraphs
    (data (fst (translate_squad_batch (pointwise toy_translation) small_config
                  english_dataset tt))) = 2.
Proof.
  split; [ | split; reflexivity].
  intros service translate config d sv.
  apply (translate_squad_batch_any translate config d sv).
Qed.

(** When a run completes, the two counts it prints are those of the dataset
    it has written: [contexts_processed] is its number of paragraphs and
    [qa_pairs_processed] its number of pairs. *)
Theorem final_statistics_count_the_output {service : Type}
        (translate : list pystr -> service -> option (list pystr) * service)
        (config : Config) (d : Dataset) (sv : service) (st : TState service) :
  snd (translate_squad_batch translate config d sv) = Some st ->
  contexts_processed st
  = count_paragraphs (data (fst (translate_squad_batch translate config d sv))) /\
  qa_pairs_processed st
  = total_qas (data (fst (translate_squad_batch translate config d sv))).
Proof.
  apply (translate_squad_batch_any translate config d sv).
Qed.

Lemma final_statistics_witness :
  3 = count_paragraphs
        (data (fst (translate_squad_batch (pointwise toy_translation)
                      {| cfg_max_contexts := Some 3; cfg_batch_size := None |}
                      english_dataset tt))) /\
  6 = total_qas
        (data (fst (translate_squad_batch (pointwise toy_translation)
                      {| cfg_max_contexts := Some 3; cfg_batch_size := None |}
                      english_dataset tt))).
Proof.
  apply (final_statistics_count_the_output (pointwise toy_translation)
           {| cfg_max_contexts := Some 3; cfg_batch_size := None |}
           english_dataset tt
           {| contexts_processed := 3; qa_pairs_processed := 6; client := tt |}).
  reflexivity.
Defined.

(** Whatever the service answers and whether or not the run completes, the
    dataset written has the version of the input (1.1 when it has none), its
    articles are a subsequence of those of the input with their titles,
    their paragraphs a subsequence of the paragraphs of these, and the pairs
    of a paragraph are all the pairs of the paragraph it comes from, with
    their ids, the number of their answers and the recorded offsets.  No
    article without paragraphs is written. *)
Theorem translation_keeps_the_structure {service : Type}
        (translate : list pystr -> service -> option (list pystr) * service)
        (config : Config) (d : Dataset) (sv : service) :
  version (fst (translate_squad_batch translate config d sv))
  = Some (default_version d) /\
  embeds translated_article_of
         (data (fst (translate_squad_batch translate config d sv))) (data d) /\
  Forall (fun a => paragraphs a <> [])
         (data (fst (translate_squad_batch translate config d sv))).
Proof.
  destruct (translate_squad_batch_any translate config d sv) as (V & E & F & _).
  repeat split; assumption.
Qed.

Lemma Forall2_in_l {A B : Type} (R : A -> B -> Prop) (l : list A) (k : list B) :
  Forall2 R l k -> forall x, In x l -> exists y, In y k /\ R x y.
Proof.
  intros F. induction F; intros z I.
  - destruct I.
  - destruct I as [<- | I].
    + exists y. split; [now left | assumption].
    + destruct (IHF z I) as (y' & Iy & Ry). exists y'.
      split; [now right | exact Ry].
Qed.

(** The two steps compose: if every pair of the input of the translation has
    at least one answer, the cleaner does not raise on the dataset the
    translation writes, whatever the service answered. *)
Theorem cleaner_accepts_translated_output {service : Type}
        (translate : list pystr -> service -> option (list pystr) * service)
        (config : Config) (d : Dataset) (sv : service) :
  (forall a p q,
     In a (data d) -> In p (paragraphs a) -> In q (qas p) -> answers q <> []) ->
  exists cleaned reports,
    clean_squad_dataset (fst (translate_squad_batch translate config d sv))
    = Ok (cleaned, reports).
Proof.
  intros H. destruct (translate_squad_batch_any translate config d sv)
    as (_ & E & _).
  rewrite clean_squad_dataset_spec.
  assert (A : all_have_answers
                (fst (translate_squad_batch translate config d sv)) = true).
  { apply all_have_answers_iff. intros a' p' q' Ia Ip Iq N.
    destruct (embeds_in _ _ _ E a' Ia) as (a & Ia0 & _ & Ep).
    destruct (embeds_in _ _ _ Ep p' Ip) as (p & Ip0 & Fq).
    destruct (Forall2_in_l _ _ _ Fq q' Iq) as (q & Iq0 & _ & Es).
    apply (H a p q Ia0 Ip0 Iq0). rewrite N in Es. cbn in Es.
    destruct (answers q); [reflexivity | discriminate]. }
  rewrite A. eexists _, _. reflexivity.
Qed.

Lemma cleaner_accepts_translated_output_witness :
  exists cleaned reports,
    clean_squad_dataset
      (fst (translate_squad_batch unavailable default_config english_dataset tt))
    = Ok (cleaned, reports).
Proof.
  apply (cleaner_accepts_translated_output unavailable default_config
           english_dataset tt).
  intros a p q Ia Ip Iq.
  simpl in Ia. destruct Ia as [<- | [<- | [<- | []]]]; simpl in Ip.
  - destruct Ip as [<- | [<- | [<- | []]]]; simpl in Iq;
      destruct Iq as [<- | [<- | []]]; discriminate.
  - destruct Ip.
  - destruct Ip as [<- | []]; simpl in Iq;
      destruct Iq as [<- | [<- | []]]; discriminate.
Defined.

(** ** A run with a service that answers text by text *)

Lemma combine_map_r {A B : Type} (g : A -> B) (l : list A) :
  combine l (map g l) = map (fun x => (x, g x)) l.
Proof. induction l as [|x l IH]; [reflexivity | ]. cbn. now rewrite IH. Qed.

Lemma count_paragraphs_nonneg (l : list Article) : 0 <= count_paragraphs l.
Proof. apply len_nonneg. Qed.

Section MapRun.
Context {service : Type}.
Variable translate : list pystr -> service -> option (list pystr) * service.
Variable f : pystr -> pystr.
Variable config : Config.

Hypothesis batches_map : forall texts sv,
  fst (batch_translate_texts translate texts sv) = map f texts.

Let starts (ps : list Paragraph) : bool :=
  forallb (fun p => forallb qa_has_starts (qas p)) ps.

Lemma translate_paragraph_map (acc : list Paragraph) (p : Paragraph)
      (tc : pystr) (st : TState service) :
  forallb qa_has_starts (qas p) = true ->
  exists st',
    translate_paragraph translate acc (p, tc) st
    = Some (acc ++ [{| context := tc; qas := map (translated_qa f) (qas p) |}],
            st') /\
    contexts_processed st' = contexts_processed st + 1 /\
    qa_pairs_processed st' = qa_pairs_processed st + len (qas p).
Proof.
  intros H. unfold translate_paragraph.
  pose proof (batches_map (collect_qa_texts (qas p)) (client st)) as B.
  destruct (batch_translate_texts translate _ _) as [tr sv]. cbn [fst] in B.
  subst tr.
  pose proof (translate_qas_replied f (qas p) [] [] []
                (qa_pairs_processed st) H) as T.
  cbn [app] in T. rewrite app_nil_r in T. change (len []) with 0 in T.
  rewrite T. eexists. split; [reflexivity | ]. split; reflexivity.
Qed.

Lemma translate_paragraphs_map (items : list (Paragraph * pystr)) :
  forall acc st,
    starts (map fst items) = true ->
    exists st',
      translate_paragraphs translate items acc st
      = Some (acc ++ map (fun it => {| context := snd it;
                                       qas := map (translated_qa f)
                                                  (qas (fst it)) |}) items,
              st') /\
      contexts_processed st' = contexts_processed st + len items /\
      qa_pairs_processed st'
      = qa_pairs_processed st + sum_qas (map fst items).
Proof.
  induction items as [|[p tc] items IH]; intros acc st H;
    cbn [translate_paragraphs map].
  - exists st. rewrite app_nil_r. repeat split; cbn; lia.
  - unfold starts in H. cbn [map fst forallb] in H.
    apply andb_true_iff in H. destruct H as [Hp Hi].
    destruct (translate_paragraph_map acc p tc st Hp) as (st1 & -> & C1 & Q1).
    destruct (IH (acc ++ [{| context := tc;
                             qas := map (translated_qa f) (qas p) |}]) st1 Hi)
      as (st' & -> & C & Q).
    exists st'. rewrite <- app_assoc. cbn [app fst snd].
    rewrite len_cons, sum_qas_cons. repeat split; lia.
Qed.

Lemma process_batch_map (cbp acc : list Paragraph) (st : TState service) :
  starts cbp = true ->
  exists st',
    process_batch translate (map context cbp) cbp acc st
    = Some (acc ++ map (translated_paragraph f) cbp, st') /\
    contexts_processed st' = contexts_processed st + len cbp /\
    qa_pairs_processed st' = qa_pairs_processed st + sum_qas cbp.
Proof.
  intros H. unfold process_batch.
  pose proof (batches_map (map context cbp) (client st)) as B.
  destruct (batch_translate_texts translate _ _) as [tcs sv]. cbn [fst] in B.
  subst tcs. rewrite map_map, combine_map_r.
  destruct (translate_paragraphs_map
              (map (fun x => (x, f (context x))) cbp) acc
              {| contexts_processed := contexts_processed st;
                 qa_pairs_processed := qa_pairs_processed st;
                 client := sv |}) as (st' & -> & C & Q).
  { rewrite map_map. cbn [fst]. now rewrite map_id. }
  exists st'. rewrite !map_map in *. cbn [fst snd] in *. rewrite map_id in Q.
  rewrite len_map in C. repeat split; assumption.
Qed.

Lemma paragraphs_loop_map (paras : list Paragraph) :
  forall cbp acc st,
    starts (cbp ++ paras) = true ->
    contexts_processed st + len cbp + len paras <= max_contexts config ->
    exists done cbp' st',
      cbp ++ paras = done ++ cbp' /\
      paragraphs_loop translate config paras (map context cbp) cbp acc st
      = Some (map context cbp', cbp',
              acc ++ map (translated_paragraph f) done, st') /\
      contexts_processed st' = contexts_processed st + len done /\
      qa_pairs_processed st' = qa_pairs_processed st + sum_qas done.
Proof.
  induction paras as [|para paras IH]; intros cbp acc st H L;
    cbn [paragraphs_loop].
  - exists [], cbp, st. rewrite !app_nil_r. cbn [app map].
    repeat split; cbn; lia.
  - rewrite len_cons in L. pose proof (len_nonneg paras) as Lp.
    pose proof (len_nonneg cbp) as Lc.
    destruct (Z.geb_spec (contexts_processed st) (max_contexts config)) as [G|G];
      [lia | ].
    cbv zeta.
    replace (map context cbp ++ [context para])
      with (map context (cbp ++ [para])) by now rewrite map_app.
    assert (H' : starts ((cbp ++ [para]) ++ paras) = true).
    { now rewrite <- app_assoc. }
    destruct (len (map context (cbp ++ [para])) >=? batch_size config).
    + assert (Hb : starts (cbp ++ [para]) = true).
      { unfold starts in *. rewrite forallb_app in H'.
        now apply andb_true_iff in H'. }
      destruct (process_batch_map (cbp ++ [para]) acc st Hb)
        as (st1 & -> & C1 & Q1).
      rewrite len_app in C1. change (len [para]) with 1 in C1.
      destruct (IH [] (acc ++ map (translated_paragraph f) (cbp ++ [para])) st1)
        as (done & cbp' & st' & S' & E' & C' & Q').
      { unfold starts in *. rewrite forallb_app in H'.
        now apply andb_true_iff in H'. }
      { change (len []) with 0. lia. }
      cbn [app map] in S', E'. rewrite E'.
      exists ((cbp ++ [para]) ++ done), cbp', st'.
      split; [ | split; [ | split]].
      * rewrite S', <- !app_assoc. reflexivity.
      * now rewrite (map_app _ (cbp ++ [para]) done), app_assoc.
      * rewrite !len_app. change (len [para]) with 1. lia.
      * rewrite (sum_qas_app (cbp ++ [para]) done). lia.
    + destruct (IH (cbp ++ [para]) acc st H')
        as (done & cbp' & st' & S' & E' & C' & Q').
      { rewrite len_app. change (len [para]) with 1. lia. }
      exists done, cbp', st'. rewrite <- S', <- app_assoc.
      repeat split; assumption.
Qed.

Lemma translate_article_map (a : Article) (st : TState service) :
  starts (paragraphs a) = true ->
  contexts_processed st + len (paragraphs a) <= max_contexts config ->
  exists st',
    translate_article translate config a st
    = Some (map (translated_paragraph f) (paragraphs a), st') /\
    contexts_processed st' = contexts_processed st + len (paragraphs a) /\
    qa_pairs_processed st' = qa_pairs_processed st + sum_qas (paragraphs a).
Proof.
  intros H L. unfold translate_article.
  destruct (paragraphs_loop_map (paragraphs a) [] [] st H)
    as (done & cbp' & st1 & S' & E' & C' & Q').
  { change (len []) with 0. lia. }
  cbn [app map] in S', E'. rewrite E', S'.
  assert (Hb : starts cbp' = true).
  { unfold starts in *. rewrite S', forallb_app in H.
    now apply andb_true_iff in H. }
  destruct cbp' as [|p cbp'].
  - cbn [map truthy]. exists st1. rewrite !app_nil_r in *. repeat split; assumption.
  - cbn [map truthy].
    destruct (process_batch_map (p :: cbp') (map (translated_paragraph f) done)
                st1 Hb) as (st' & P & C & Q).
    cbn [map] in P. rewrite P. exists st'.
    rewrite map_app, len_app, sum_qas_app. repeat split; lia.
Qed.

Lemma nothing_left (l : list Article) :
  count_paragraphs l = 0 ->
  filter (fun a => truthy (paragraphs a)) (map (translated_article f) l) = [] /\
  total_qas l = 0.
Proof.
  induction l as [|a l IH]; intros H; [now split | ].
  rewrite count_paragraphs_cons in H.
  pose proof (len_nonneg (paragraphs a)). pose proof (count_paragraphs_nonneg l).
  destruct (IH ltac:(lia)) as [F T]. rewrite total_qas_cons, T.
  cbn [map filter translated_article paragraphs]. rewrite F.
  destruct (paragraphs a); [now split | rewrite len_cons in *].
  pose proof (len_nonneg l0). lia.
Qed.

Lemma articles_loop_map (articles : list Article) :
  forall translated st,
    forallb (fun a => starts (paragraphs a)) articles = true ->
    contexts_processed st + count_paragraphs articles <= max_contexts config ->
    exists st',
      articles_loop translate config articles translated st
      = (translated ++
         filter (fun a => truthy (paragraphs a))
                (map (translated_article f) articles),
         Some st') /\
      contexts_processed st'
      = contexts_processed st + count_paragraphs articles /\
      qa_pairs_processed st' = qa_pairs_processed st + total_qas articles.
Proof.
  induction articles as [|a articles IH]; intros translated st H L;
    cbn [articles_loop].
  - exists st. rewrite app_nil_r. repeat split; cbn; lia.
  - cbn [forallb] in H. apply andb_true_iff in H. destruct H as [Ha Hl].
    pose proof (count_paragraphs_nonneg (a :: articles)) as N.
    pose proof (count_paragraphs_nonneg articles) as N'.
    pose proof (len_nonneg (paragraphs a)) as Np.
    destruct (Z.geb_spec (contexts_processed st) (max_contexts config)) as [G|G].
    + destruct (nothing_left (a :: articles) ltac:(lia)) as [F T].
      rewrite F, T, app_nil_r. exists st. repeat split; lia.
    + rewrite count_paragraphs_cons in L.
      destruct (translate_article_map a st Ha ltac:(lia)) as (st1 & -> & C1 & Q1).
      destruct (IH (if truthy (map (translated_paragraph f) (paragraphs a))
                    then translated ++
                         [{| title := title a;
                             paragraphs := map (translated_paragraph f)
                                               (paragraphs a) |}]
                    else translated) st1 Hl ltac:(lia))
        as (st' & -> & C & Q).
      exists st'. rewrite count_paragraphs_cons, total_qas_cons.
      cbn [map filter translated_article paragraphs].
      split; [ | split; lia].
      f_equal. destruct (truthy (map (translated_paragraph f) (paragraphs a))).
      * now rewrite <- app_assoc.
      * reflexivity.
Qed.

End MapRun.

Lemma all_starts_iff (articles : list Article) :
  forallb (fun a => forallb (fun p => forallb qa_has_starts (qas p))
                            (paragraphs a)) articles = true <->
  forall a p q answer,
    In a articles -> In p (paragraphs a) -> In q (qas p) ->
    In answer (answers q) -> answer_start answer <> None.
Proof.
  rewrite forallb_forall. split.
  - intros H a p q answer Ia Ip Iq Ian.
    specialize (H a Ia). rewrite forallb_forall in H.
    specialize (H p Ip). rewrite forallb_forall in H.
    specialize (H q Iq). unfold qa_has_starts in H. rewrite forallb_forall in H.
    specialize (H answer Ian). now destruct (answer_start answer).
  - intros H a Ia. apply forallb_forall. intros p Ip.
    apply forallb_forall. intros q Iq. apply forallb_forall. intros answer Ian.
    specialize (H a p q answer Ia Ip Iq Ian).
    now destruct (answer_start answer).
Qed.

Lemma map_fixed {A : Type} (g : A -> A) (l : list A) :
  (forall x, g x = x) -> map g l = l.
Proof.
  intros H. induction l as [|x l IH]; [reflexivity | ].
  cbn. now rewrite H, IH.
Qed.

Lemma translated_article_same (a : Article) :
  translated_article (fun s => s) a = a.
Proof.
  destruct a as [t ps]. unfold translated_article. cbn [title paragraphs].
  f_equal. apply map_fixed. intros [c l]. unfold translated_paragraph.
  cbn [context qas]. f_equal. apply map_fixed. intros [i q ans].
  unfold translated_qa. cbn [id question answers]. f_equal.
  apply map_fixed. now intros [t' s'].
Qed.

(** With a service that translates text by text with [f] and never raises,
    on a dataset in which every answer has its ['answer_start'] and that has
    no more than [max_contexts] paragraphs, the run completes and writes the
    input with every context, question and answer text translated by [f].
    Titles, ids and offsets are those of the input, the order is kept, the
    size of the batches does not show, and the only articles left out are
    those without paragraphs. *)
Theorem translation_by_a_text_by_text_service {service : Type}
        (translate : list pystr -> service -> option (list pystr) * service)
        (f : pystr -> pystr) (config : Config) (d : Dataset) (sv : service) :
  (forall b sv', fst (translate b sv') = Some (map f b)) ->
  (forall a p q answer,
     In a (data d) -> In p (paragraphs a) -> In q (qas p) ->
     In answer (answers q) -> answer_start answer <> None) ->
  count_paragraphs (data d) <= max_contexts config ->
  fst (translate_squad_batch translate config d sv)
  = {| version := Some (default_version d);
       data := filter (fun a => truthy (paragraphs a))
                      (map (translated_article f) (data d)) |} /\
  exists st,
    snd (translate_squad_batch translate config d sv) = Some st /\
    contexts_processed st = count_paragraphs (data d) /\
    qa_pairs_processed st = total_qas (data d).
Proof.
  intros Hf Hs Hc. apply all_starts_iff in Hs. unfold translate_squad_batch.
  destruct (articles_loop_map translate f config
              (fun texts sv' =>
                 batches_pointwise translate f texts sv' Hf)
              (data d) []
              {| contexts_processed := 0; qa_pairs_processed := 0;
                 client := sv |} Hs Hc) as (st' & -> & C & Q).
  cbn [app fst snd] in *. split; [reflexivity | ]. exists st'.
  repeat split; assumption.
Qed.

Lemma translation_by_a_text_by_text_service_witness :
  fst (translate_squad_batch (pointwise toy_translation) default_config
         english_dataset tt)
  = {| version := Some (lit "1.1");
       data := filter (fun a => truthy (paragraphs a))
                      (map (translated_article toy_translation)
                           (data english_dataset)) |}.
Proof.
  apply (translation_by_a_text_by_text_service (pointwise toy_translation)
           toy_translation default_config english_dataset tt).
  - reflexivity.
  - intros a p q answer Ia Ip Iq Ian.
    simpl in Ia. destruct Ia as [<- | [<- | [<- | []]]]; simpl in Ip.
    + destruct Ip as [<- | [<- | [<- | []]]]; simpl in Iq;
        destruct Iq as [<- | [<- | []]]; simpl in Ian;
        repeat (destruct Ian as [<- | Ian]; [discriminate | ]);
        destruct Ian.
    + destruct Ip.
    + destruct Ip as [<- | []]; simpl in Iq;
        destruct Iq as [<- | [<- | []]]; simpl in Ian;
        repeat (destruct Ian as [<- | Ian]; [discriminate | ]);
        destruct Ian.
  - vm_compute. discriminate.
Defined.

(** With a service that raises on every call the run still completes: each
    batch falls back on its input, and the dataset written is the input
    untranslated, without the articles that have no paragraph (same
    conditions on the offsets and on [max_contexts]). *)
Theorem translation_without_the_service {service : Type}
        (translate : list pystr -> service -> option (list pystr) * service)
        (config : Config) (d : Dataset) (sv : service) :
  (forall b sv', fst (translate b sv') = None) ->
  (forall a p q answer,
     In a (data d) -> In p (paragraphs a) -> In q (qas p) ->
     In answer (answers q) -> answer_start answer <> None) ->
  count_paragraphs (data d) <= max_contexts config ->
  fst (translate_squad_batch translate config d sv)
  = {| version := Some (default_version d);
       data := filter (fun a => truthy (paragraphs a)) (data d) |} /\
  snd (translate_squad_batch translate config d sv) <> None.
Proof.
  intros Hf Hs Hc. apply all_starts_iff in Hs. unfold translate_squad_batch.
  destruct (articles_loop_map translate (fun s => s) config
              (fun texts sv' =>
                 eq_trans
                   (batches_unavailable translate texts sv' Hf)
                   (eq_sym (map_id texts)))
              (data d) []
              {| contexts_processed := 0; qa_pairs_processed := 0;
                 client := sv |} Hs Hc) as (st' & -> & C & Q).
  cbn [app fst snd]. rewrite (map_fixed _ _ translated_article_same).
  split; [reflexivity | discriminate].
Qed.

Lemma translation_without_the_service_witness :
  fst (translate_squad_batch unavailable default_config english_dataset tt)
  = {| version := Some (lit "1.1");
       data := filter (fun a => truthy (paragraphs a)) (data english_dataset) |}.
Proof.
  apply (translation_without_the_service unavailable default_config
           english_dataset tt).
  - reflexivity.
  - intros a p q answer Ia Ip Iq Ian.
    simpl in Ia. destruct Ia as [<- | [<- | [<- | []]]]; simpl in Ip.
    + destruct Ip as [<- | [<- | [<- | []]]]; simpl in Iq;
        destruct Iq as [<- | [<- | []]]; simpl in Ian;
        repeat (destruct Ian as [<- | Ian]; [discriminate | ]);
        destruct Ian.
    + destruct Ip.
    + destruct Ip as [<- | []]; simpl in Iq;
        destruct Iq as [<- | [<- | []]]; simpl in Ian;
        repeat (destruct Ian as [<- | Ian]; [discriminate | ]);
        destruct Ian.
  - vm_compute. discriminate.
Defined.

(** When the service gives fewer contexts than the batch has paragraphs, the
    paragraphs left without a context are dropped without an error: a batch
    that is processed appends as many paragraphs as the shorter of the batch
    and the contexts given. *)
Theorem short_reply_drops_paragraphs {service : Type}
        (translate : list pystr -> service -> option (list pystr) * service)
        (cbc : list pystr) (cbp acc acc' : list Paragraph)
        (st st' : TState service) :
  process_batch translate cbc cbp acc st = Some (acc', st') ->
  len acc' = len acc +
             Z.min (len cbp)
                   (len (fst (batch_translate_texts translate cbc (client st)))).
Proof.
  unfold process_batch.
  destruct (batch_translate_texts translate cbc (client st)) as [tcs sv].
  intros E. destruct (translate_paragraphs_any _ _ _ _ _ _ E) as (new & -> & F & _).
  rewrite len_app, (Forall2_len _ _ _ F), len_map. cbn [fst].
  unfold len. rewrite length_combine. lia.
Qed.

Lemma short_reply_drops_paragraphs_witness :
  len [{| context := lit "only one";
          qas := map (translated_qa (fun s => s)) (qas english_paragraph) |}]
  = len (@nil Paragraph) +
    Z.min (len [english_paragraph; english_paragraph])
          (len (fst (batch_translate_texts
                       (recording (fun calls b =>
                                     match calls with
                                     | [] => Some [lit "only one"]
                                     | _ :: _ => Some b
                                     end))
                       [lit "a"; lit "b"] []))).
Proof.
  apply (short_reply_drops_paragraphs
           (recording (fun calls b => match calls with
                                      | [] => Some [lit "only one"]
                                      | _ :: _ => Some b
                                      end))
           [lit "a"; lit "b"] [english_paragraph; english_paragraph] []
           [{| context := lit "only one";
               qas := map (translated_qa (fun s => s)) (qas english_paragraph) |}]
           {| contexts_processed := 0; qa_pairs_processed := 0; client := [] |}
           {| contexts_processed := 1; qa_pairs_processed := 2;
              client := [[lit "a"; lit "b"];
                         collect_qa_texts (qas english_paragraph)] |}).
  reflexivity.
Defined.

(** ** Articles are cleaned one by one *)

(** The run on two lists of articles put end to end returns the cleaned
    articles of the first followed by those of the second, and the reports
    of the first followed by those of the second. *)
Theorem cleaning_distributes_over_articles
        (v : option pystr) (l1 l2 : list Article)
        (c1 c2 : Dataset) (r1 r2 : list ErrorReport) :
  clean_squad_dataset {| version := v; data := l1 |} = Ok (c1, r1) ->
  clean_squad_dataset {| version := v; data := l2 |} = Ok (c2, r2) ->
  clean_squad_dataset {| version := v; data := l1 ++ l2 |}
  = Ok ({| version := version c1; data := data c1 ++ data c2 |}, r1 ++ r2).
Proof.
  intros H1 H2.
  destruct (clean_ok_inv _ _ _ H1) as (A1 & -> & ->).
  destruct (clean_ok_inv _ _ _ H2) as (A2 & -> & ->).
  rewrite clean_squad_dataset_spec. unfold all_have_answers in *.
  cbn [data version] in *. rewrite forallb_app, A1, A2. cbn [andb].
  unfold spec_clean_articles, spec_reports.
  now rewrite map_app, filter_app, flat_map_app.
Qed.

Lemma cleaning_distributes_witness :
  clean_squad_dataset
    {| version := None; data := data sample_dataset ++ data sample_dataset |}
  = Ok ({| version := Some (lit "1.1");
           data := data sample_cleaned ++ data sample_cleaned |},
        sample_reports ++ sample_reports).
Proof.
  apply (cleaning_distributes_over_articles None (data sample_dataset)
           (data sample_dataset) sample_cleaned sample_cleaned
           sample_reports sample_reports);
    reflexivity.
Defined.
